(** * CustomAdam: a shallow embedding of [CustomAdam.py]

    The optimizer of [CustomAdam.py] is embedded with explicit state passing.
    Python floats and tensor elements are read as real numbers, a tensor is
    the list of its elements (its shape is the length of that list), and the
    objects the Python code mutates in place (parameter data, gradient data,
    the optimizer's state dictionary) are threaded through every operation,
    so that what an in-place method leaves behind is visible afterwards, also
    when a later statement raises. *)

From Stdlib Require Import Reals.Reals List Bool Arith Lia Lra Psatz.
Import ListNotations.

Open Scope R_scope.

(** ** Tensors *)

Module Tensor.

(** A one-dimensional tensor; [shape] is its number of elements. *)
Definition t := list R.

Definition shape (x : t) : nat := length x.

(** [torch.zeros_like] *)
Definition zeros_like (x : t) : t := map (fun _ => 0) x.

(** [x * c], [c * x] and [x + c] with a Python float [c] *)
Definition mul_scalar (x : t) (c : R) : t := map (fun a => a * c) x.
Definition scalar_mul (c : R) (x : t) : t := map (fun a => c * a) x.
Definition add_scalar (x : t) (c : R) : t := map (fun a => a + c) x.

(** [x.mul_(c)], [x.divide_(c)], [x.pow_(2)], [x.sqrt_()]: the value left
    in [x].  The reading in real numbers has no nan and no infinity: it
    follows the library where every divisor is different from 0 and every
    entry under a square root is at least 0, and statements that rely on a
    quotient or a root keep to such inputs. *)
Definition mul_ (x : t) (c : R) : t := map (fun a => a * c) x.
Definition divide_scalar_ (x : t) (c : R) : t := map (fun a => a / c) x.
Definition pow_ (x : t) (n : nat) : t := map (fun a => a ^ n) x.
Definition sqrt_ (x : t) : t := map sqrt x.

Fixpoint zip_with (f : R -> R -> R) (x y : t) : t :=
  match x, y with
  | a :: x', b :: y' => f a b :: zip_with f x' y'
  | _, _ => []
  end.

(** An in-place binary method [x.op_(y)] keeps the shape of [x]: [y] must
    have that shape, or one element that is broadcast; any other shape
    makes the library raise, and [x] is left as it was. *)
Definition inplace (f : R -> R -> R) (x y : t) : option t :=
  if Nat.eqb (length y) (length x) then Some (zip_with f x y)
  else match y with
       | [b] => Some (map (fun a => f a b) x)
       | _ => None
       end.

Definition add_ : t -> t -> option t := inplace Rplus.
Definition divide_ : t -> t -> option t := inplace Rdiv.

End Tensor.

(** ** Data model *)

(** Exceptions the modelled statements can raise. *)
Inductive exn : Type :=
| ValueError      (* raised by the constructor's checks *)
| AttributeError  (* attribute access on [None] or on an empty dict *)
| RuntimeError.   (* shapes that cannot be broadcast in place *)

(** A parameter: [param.data], and [param.grad], which is [None] until a
    gradient has been computed for it. *)
Record Param : Type := mkParam {
  data : Tensor.t;
  grad : option Tensor.t
}.

(** An entry of [self.param_groups]. *)
Record ParamGroup : Type := mkGroup {
  params : list Param;
  stepsize : R;
  bias_m1 : R;
  bias_m2 : R;
  epsilon : R;
  bias_correction : bool
}.

(** [self.state], a [defaultdict(dict)] used with three fixed keys.  A key
    that was never assigned reads as the empty dict, modelled by [None]. *)
Record State : Type := mkState {
  st_step : option nat;
  first_moment_estimate : option Tensor.t;
  second_moment_estimate : option Tensor.t
}.

Record Optimizer : Type := mkOpt {
  param_groups : list ParamGroup;
  state : State
}.

Definition empty_state : State := mkState None None None.

(** ** Construction *)

(** [CustomAdam.__init__] on a flat list of parameters.  The two checks are
    the source's, in the source's order.  The call of the base class's
    [Optimizer.__init__] on line 31 comes last: it refuses an empty list of
    parameters, also with a [ValueError], and otherwise makes one group out
    of the parameters and the defaults and starts with an empty state. *)
Definition __init__ (ps : list Param) (stepsize bias_m1 bias_m2 epsilon : R)
    (bias_correction : bool) : exn + Optimizer :=
  if Rlt_dec stepsize 0 then inl ValueError
  else if (if Rlt_dec bias_m1 0 then true
           else (if Rlt_dec bias_m2 0 then true else false) && bias_correction)
  then inl ValueError
  else match ps with
       | [] => inl ValueError
       | _ :: _ =>
           inr (mkOpt [mkGroup ps stepsize bias_m1 bias_m2 epsilon bias_correction]
                      empty_state)
       end.

(** ** The update of one parameter *)

(** The step counter as a number: an unassigned key counts as no step. *)
Definition step_counter (s : State) : nat :=
  match st_step s with
  | Some n => n
  | None => 0%nat
  end.

(** Lines 40-43: [if not self.state["step"]] is true for the empty dict and
    for 0. *)
Definition bump_step (s : State) : State :=
  match st_step s with
  | None | Some O => mkState (Some 1%nat) (first_moment_estimate s) (second_moment_estimate s)
  | Some (S n) => mkState (Some (S (S n))) (first_moment_estimate s) (second_moment_estimate s)
  end.

(** Lines 55-58. *)
Definition init_moments (s : State) (p : Param) : State :=
  if Nat.eqb (step_counter s) 1
  then mkState (st_step s) (Some (Tensor.zeros_like (data p)))
               (Some (Tensor.zeros_like (data p)))
  else s.

(** What one statement leaves behind: the state, the parameter's data and its
    gradient's data, and the exception if it raised. *)
Record Frame : Type := mkFrame {
  f_state : State;
  f_data : Tensor.t;
  f_grad : Tensor.t;
  f_exn : option exn
}.

Definition raise (e : exn) (fr : Frame) : Frame :=
  mkFrame (f_state fr) (f_data fr) (f_grad fr) (Some e).

(** Run [k] unless an exception is already pending. *)
Definition andthen (fr : Frame) (k : Frame -> Frame) : Frame :=
  match f_exn fr with
  | Some _ => fr
  | None => k fr
  end.

Notation "fr >>= k" := (andthen fr k) (at level 50, left associativity).

Definition set_first (s : State) (m : Tensor.t) : State :=
  mkState (st_step s) (Some m) (second_moment_estimate s).
Definition set_second (s : State) (v : Tensor.t) : State :=
  mkState (st_step s) (first_moment_estimate s) (Some v).

(** Line 63: [first_moment_estimate.mul_(b1).add_(gradients * (1.0 - b1))].
    An unassigned key yields an empty dict, which has no [mul_]. *)
Definition update_first (g : ParamGroup) (fr : Frame) : Frame :=
  match first_moment_estimate (f_state fr) with
  | None => raise AttributeError fr
  | Some m =>
      let m1 := Tensor.mul_ m (bias_m1 g) in
      let fr1 := mkFrame (set_first (f_state fr) m1) (f_data fr) (f_grad fr) None in
      match Tensor.add_ m1 (Tensor.mul_scalar (f_grad fr) (1 - bias_m1 g)) with
      | None => raise RuntimeError fr1
      | Some m2 => mkFrame (set_first (f_state fr) m2) (f_data fr) (f_grad fr) None
      end
  end.

(** Lines 65-66: [second_moment_estimate.mul_(b2).add_(gradients.pow_(2) *
    (1.0 - b2))]; [pow_] squares the gradient's data in place. *)
Definition update_second (g : ParamGroup) (fr : Frame) : Frame :=
  match second_moment_estimate (f_state fr) with
  | None => raise AttributeError fr
  | Some v =>
      let v1 := Tensor.mul_ v (bias_m2 g) in
      let g2 := Tensor.pow_ (f_grad fr) 2 in
      let fr1 := mkFrame (set_second (f_state fr) v1) (f_data fr) g2 None in
      match Tensor.add_ v1 (Tensor.mul_scalar g2 (1 - bias_m2 g)) with
      | None => raise RuntimeError fr1
      | Some v2 => mkFrame (set_second (f_state fr) v2) (f_data fr) g2 None
      end
  end.

(** Lines 68-72.  Both moments exist here: lines 63-66 went through.  The
    power [b ** t] is read in real numbers; for a decay between 0 and 1 it
    stays between 0 and 1 (outside that range Python's float power can
    overflow and raise, which this reading does not have). *)
Definition correct_bias (g : ParamGroup) (fr : Frame) : Frame :=
  if bias_correction g then
    match first_moment_estimate (f_state fr), second_moment_estimate (f_state fr) with
    | Some m, Some v =>
        let t := step_counter (f_state fr) in
        let m' := Tensor.divide_scalar_ m (1 - bias_m1 g ^ t) in
        let v' := Tensor.divide_scalar_ v (1 - bias_m2 g ^ t) in
        mkFrame (mkState (st_step (f_state fr)) (Some m') (Some v'))
                (f_data fr) (f_grad fr) None
    | _, _ => raise AttributeError fr
    end
  else fr.

(** Lines 76-77: [param.data.add_((-stepsize) * first_moment_estimate.divide_(
    second_moment_estimate.sqrt_() + epsilon))]; [sqrt_] and [divide_] write
    into the stored moments. *)
Definition apply_update (g : ParamGroup) (fr : Frame) : Frame :=
  match first_moment_estimate (f_state fr), second_moment_estimate (f_state fr) with
  | Some m, Some v =>
      let v' := Tensor.sqrt_ v in
      let fr1 := mkFrame (set_second (f_state fr) v') (f_data fr) (f_grad fr) None in
      match Tensor.divide_ m (Tensor.add_scalar v' (epsilon g)) with
      | None => raise RuntimeError fr1
      | Some m' =>
          let fr2 := mkFrame (set_first (f_state fr1) m') (f_data fr) (f_grad fr) None in
          match Tensor.add_ (f_data fr) (Tensor.scalar_mul (- stepsize g) m') with
          | None => raise RuntimeError fr2
          | Some d => mkFrame (f_state fr2) d (f_grad fr) None
          end
      end
  | _, _ => raise AttributeError fr
  end.

(** Lines 55-72 for a parameter whose gradient is the tensor [gr]: the
    moments as they stand when the update of line 76 reads them. *)
Definition corrected_moments (g : ParamGroup) (s : State) (p : Param) (gr : Tensor.t) : Frame :=
  mkFrame (init_moments s p) (data p) gr None
    >>= update_first g >>= update_second g >>= correct_bias g.

(** Lines 55-77. *)
Definition update_param (g : ParamGroup) (s : State) (p : Param) (gr : Tensor.t) : Frame :=
  corrected_moments g s p gr >>= apply_update g.

(** The body of the inner loop, lines 48-77.  [param.grad.data] is evaluated
    first: on a parameter without gradient it is an attribute access on
    [None].  When [param.grad] is a tensor, so is its [data], and comparing a
    tensor with [None] is false, so the [continue] is not taken. *)
Definition step_param (g : ParamGroup) (s : State) (p : Param) : State * Param * option exn :=
  match grad p with
  | None => (s, p, Some AttributeError)
  | Some gr =>
      let fr := update_param g s p gr in
      (f_state fr, mkParam (f_data fr) (Some (f_grad fr)), f_exn fr)
  end.

(** The inner loop, lines 47-77: an exception leaves the remaining
    parameters untouched. *)
Fixpoint step_params (g : ParamGroup) (s : State) (ps : list Param)
  : State * list Param * option exn :=
  match ps with
  | [] => (s, [], None)
  | p :: ps' =>
      match step_param g s p with
      | (s1, p1, Some e) => (s1, p1 :: ps', Some e)
      | (s1, p1, None) =>
          match step_params g s1 ps' with
          | (s2, ps2, e) => (s2, p1 :: ps2, e)
          end
      end
  end.

Definition with_params (g : ParamGroup) (ps : list Param) : ParamGroup :=
  mkGroup ps (stepsize g) (bias_m1 g) (bias_m2 g) (epsilon g) (bias_correction g).

(** The outer loop, lines 45-77. *)
Fixpoint step_groups (s : State) (gs : list ParamGroup)
  : State * list ParamGroup * option exn :=
  match gs with
  | [] => (s, [], None)
  | g :: gs' =>
      match step_params g s (params g) with
      | (s1, ps1, Some e) => (s1, with_params g ps1 :: gs', Some e)
      | (s1, ps1, None) =>
          match step_groups s1 gs' with
          | (s2, gs2, e) => (s2, with_params g ps1 :: gs2, e)
          end
      end
  end.

(** The result of a call: the value returned, or the exception raised. *)
Inductive outcome (A : Type) : Type :=
| Returned (a : A)
| Raised (e : exn).
Arguments Returned {A} a.
Arguments Raised {A} e.

(** [CustomAdam.step].  [closure] is the loss the closure returns when one is
    passed.  The optimizer in the result is the object as the call leaves
    it, whether it returns or raises. *)
Definition step (o : Optimizer) (closure : option R) : Optimizer * outcome (option R) :=
  let loss := closure in
  let s := bump_step (state o) in
  match step_groups s (param_groups o) with
  | (s', gs', Some e) => (mkOpt gs' s', Raised e)
  | (s', gs', None) => (mkOpt gs' s', Returned loss)
  end.

(** ** The training loop's side *)

(** Between two calls the training loop writes the gradients: one optional
    tensor per parameter, group by group.  This is the caller's part, not
    code of [CustomAdam.py]. *)
Definition Grads : Type := list (list (option Tensor.t)).

Fixpoint write_grads (ps : list Param) (gs : list (option Tensor.t)) : list Param :=
  match ps, gs with
  | p :: ps', gr :: gs' => mkParam (data p) gr :: write_grads ps' gs'
  | _, _ => ps
  end.

Fixpoint write_group_grads (gs : list ParamGroup) (grs : Grads) : list ParamGroup :=
  match gs, grs with
  | g :: gs', gr :: grs' =>
      with_params g (write_grads (params g) gr) :: write_group_grads gs' grs'
  | _, _ => gs
  end.

Definition backward (o : Optimizer) (grs : Grads) : Optimizer :=
  mkOpt (write_group_grads (param_groups o) grs) (state o).

(** The data of all parameters, group by group. *)
Definition all_data (gs : list ParamGroup) : list (list Tensor.t) :=
  map (fun g => map data (params g)) gs.

(** The gradients of all parameters, group by group. *)
Definition all_grads (gs : list ParamGroup) : Grads :=
  map (fun g => map grad (params g)) gs.



(** ** Specification-side definitions *)

(** The value the first update gives an element [p] with gradient [gr] when
    bias correction is off. *)
Definition first_step_value (g : ParamGroup) (p gr : R) : R :=
  p - stepsize g * ((1 - bias_m1 g) * gr)
      / (sqrt ((1 - bias_m2 g) * gr ^ 2) + epsilon g).

Definition expected_first_step (g : ParamGroup) (p : Param) : Tensor.t :=
  match grad p with
  | Some gr => Tensor.zip_with (first_step_value g) (data p) gr
  | None => data p
  end.

(** A parameter that has a gradient of its own shape. *)
Definition grad_matches (p : Param) : Prop :=
  match grad p with
  | Some gr => length gr = length (data p)
  | None => False
  end.

(** A group whose parameters can all be updated, bias correction off. *)
Definition plain_group (g : ParamGroup) : Prop :=
  bias_correction g = false /\ Forall grad_matches (params g).

(** The exponential moving average with decay [b]. *)
Definition ema (b m x : R) : R := b * m + (1 - b) * x.

(** The condition under which the constructor raises. *)
Definition invalid_configuration (stepsize bias_m1 bias_m2 : R) (bias_correction : bool) : Prop :=
  stepsize < 0 \/ bias_m1 < 0 \/ (bias_m2 < 0 /\ bias_correction = true).

(** The shapes of the two stored moments.  The state dictionary has one
    entry for each moment, whatever the parameter. *)
Definition moment_shapes (s : State) : option nat * option nat :=
  (option_map Tensor.shape (first_moment_estimate s),
   option_map Tensor.shape (second_moment_estimate s)).

(** ** Concrete optimizers *)

(** The scenario of the specification: one scalar parameter 0.0 with
    gradient 1.0. *)
Definition scenario_group : ParamGroup :=
  mkGroup [mkParam [0] (Some [1])] 0.1 0.9 0.999 1e-8 false.

(** One parameter for which no gradient was computed, default
    hyperparameters. *)
Definition frozen_optimizer : Optimizer :=
  mkOpt [mkGroup [mkParam [5] None] 0.001 0.9 0.999 10e-8 true] empty_state.

(** Two parameters of which the second has no gradient, default
    hyperparameters. *)
Definition half_frozen_optimizer : Optimizer :=
  mkOpt [mkGroup [mkParam [0] (Some [1]); mkParam [5] None]
                 0.001 0.9 0.999 10e-8 true] empty_state.

(** Two parameters of shapes 2 and 1, each with a gradient of its shape,
    default hyperparameters. *)
Definition two_shapes_optimizer : Optimizer :=
  mkOpt [mkGroup [mkParam [0; 0] (Some [1; 1]); mkParam [0] (Some [1])]
                 0.001 0.9 0.999 10e-8 true] empty_state.

(** One scalar parameter with gradient 4, decays 1/2 and 3/4, no bias
    correction. *)
Definition plain_optimizer : Optimizer :=
  mkOpt [mkGroup [mkParam [0] (Some [4])] 1 (1/2) (3/4) 1 false] empty_state.

(** ** Views of an optimizer used in the statements below *)

(** The hyperparameters of a group. *)
Definition hyper (g : ParamGroup) : R * R * R * R * bool :=
  (stepsize g, bias_m1 g, bias_m2 g, epsilon g, bias_correction g).

(** All parameters in the order the two loops of [step] visit them. *)
Definition all_params (gs : list ParamGroup) : list Param :=
  concat (map params gs).

(** What [pow_(2)] leaves in a gradient that is present. *)
Definition squared (gr : option Tensor.t) : option Tensor.t :=
  option_map (fun x => Tensor.pow_ x 2) gr.

(** Both moments of shape [n]. *)
Definition shape_pair (n : nat) : option nat * option nat := (Some n, Some n).

(** The shapes of the moments after allocating them for each parameter of
    [ps] in turn, starting from [shapes]. *)
Definition last_shapes (ps : list Param) (shapes : option nat * option nat)
  : option nat * option nat :=
  fold_left (fun _ p => shape_pair (Tensor.shape (data p))) ps shapes.

(** ** The update of one element *)

(** Lines 63-77 read on one element: [d] of the parameter, [m] and [v] of
    the stored moments, [x] of the gradient, at counter [t]. *)
Definition moment1 (g : ParamGroup) (t : nat) (m x : R) : R :=
  let m1 := m * bias_m1 g + x * (1 - bias_m1 g) in
  if bias_correction g then m1 / (1 - bias_m1 g ^ t) else m1.

Definition moment2 (g : ParamGroup) (t : nat) (v x : R) : R :=
  let v1 := v * bias_m2 g + x ^ 2 * (1 - bias_m2 g) in
  if bias_correction g then v1 / (1 - bias_m2 g ^ t) else v1.

(** What the step leaves in the second moment, in the first moment and in
    the parameter. *)
Definition stored_second (g : ParamGroup) (t : nat) (v x : R) : R :=
  sqrt (moment2 g t v x).

Definition stored_first (g : ParamGroup) (t : nat) (m v x : R) : R :=
  moment1 g t m x / (stored_second g t v x + epsilon g).

Definition new_value (g : ParamGroup) (t : nat) (d m v x : R) : R :=
  d + - stepsize g * stored_first g t m v x.

Fixpoint map3 (f : R -> R -> R -> R) (a b c : list R) : list R :=
  match a, b, c with
  | x :: a', y :: b', z :: c' => f x y z :: map3 f a' b' c'
  | _, _, _ => []
  end.

Fixpoint map4 (f : R -> R -> R -> R -> R) (a b c d : list R) : list R :=
  match a, b, c, d with
  | x :: a', y :: b', z :: c', w :: d' => f x y z w :: map4 f a' b' c' d'
  | _, _, _, _ => []
  end.

(** The first update of an element with bias correction on, as a formula. *)
Definition sign_step (g : ParamGroup) (d x : R) : R :=
  d - stepsize g * x / (Rabs x + epsilon g).

(** The first update of a parameter, whatever the bias-correction flag. *)
Definition first_update (g : ParamGroup) (p : Param) : Tensor.t :=
  match grad p with
  | Some gr => Tensor.zip_with (fun d x => new_value g 1 d 0 0 x) (data p) gr
  | None => data p
  end.

Definition expected_sign_step (g : ParamGroup) (p : Param) : Tensor.t :=
  match grad p with
  | Some gr => Tensor.zip_with (sign_step g) (data p) gr
  | None => data p
  end.

(** A group whose parameters can all be updated, bias correction on, with
    decays for which the correction at the first step is defined. *)
Definition corrected_group (g : ParamGroup) : Prop :=
  bias_correction g = true /\ bias_m1 g <> 1 /\ bias_m2 g <> 1
  /\ 0 < epsilon g
  /\ Forall grad_matches (params g).

(** Decays in the range of the method and a positive epsilon: no quotient
    of an update has a zero divisor and no root a negative entry, as long as
    the stored second moment has no negative entry. *)
Definition in_range (g : ParamGroup) : Prop :=
  0 <= bias_m1 g < 1 /\ 0 <= bias_m2 g < 1 /\ 0 < epsilon g.

Definition nonnegative (x : Tensor.t) : Prop := Forall (fun a => 0 <= a) x.

(** The stored second moment, when there is one, has no negative entry. *)
Definition second_nonnegative (s : State) : Prop :=
  match second_moment_estimate s with
  | Some v => nonnegative v
  | None => True
  end.


(** Hyperparameters without bias correction, used on a state that has
    already stepped. *)
Definition plain_group_2 : ParamGroup :=
  mkGroup [mkParam [0] (Some [2])] 1 (1/2) (3/4) 1 false.

(** ** Tensor lemmas *)

Section TensorFacts.

Lemma zip_with_length f x y :
  length (Tensor.zip_with f x y) = Nat.min (length x) (length y).
Proof.
  revert y; induction x as [|a x IH]; intros [|b y]; simpl; auto.
Qed.

Lemma inplace_same_shape f x y :
  length y = length x -> Tensor.inplace f x y = Some (Tensor.zip_with f x y).
Proof.
  intros H. unfold Tensor.inplace. now rewrite H, Nat.eqb_refl.
Qed.

Lemma inplace_shape f x y z :
  Tensor.inplace f x y = Some z -> length z = length x.
Proof.
  unfold Tensor.inplace.
  destruct (Nat.eqb (length y) (length x)) eqn:E.
  - intros [= <-]. rewrite zip_with_length. apply Nat.eqb_eq in E. lia.
  - destruct y as [|b [|c y]]; try discriminate.
    intros [= <-]. apply length_map.
Qed.

End TensorFacts.

(** Shapes of tensor expressions are settled by rewriting. *)
Ltac shapes :=
  unfold Tensor.shape, Tensor.mul_, Tensor.mul_scalar, Tensor.scalar_mul,
    Tensor.add_scalar, Tensor.divide_scalar_, Tensor.zeros_like, Tensor.pow_,
    Tensor.sqrt_ in *;
  repeat (rewrite ?length_map, ?zip_with_length in * );
  simpl in *; try lia.

(** ** The constructor *)

Lemma init_valid ps ss b1 b2 eps bc :
  ps <> [] ->
  0 <= ss -> 0 <= b1 -> 0 <= b2 \/ bc = false ->
  __init__ ps ss b1 b2 eps bc = inr (mkOpt [mkGroup ps ss b1 b2 eps bc] empty_state).
Proof.
  intros Hps Hs H1 H2. unfold __init__.
  destruct ps as [|p ps]; [contradiction|].
  destruct (Rlt_dec ss 0); [lra|].
  destruct (Rlt_dec b1 0); [lra|].
  destruct (Rlt_dec b2 0), bc; simpl; auto; destruct H2; try lra; discriminate.
Qed.

(** The base class refuses an empty list whatever the hyperparameters. *)
Lemma init_empty ss b1 b2 eps bc :
  __init__ [] ss b1 b2 eps bc = inl ValueError.
Proof.
  unfold __init__.
  destruct (Rlt_dec ss 0); auto.
  now destruct (if Rlt_dec b1 0 then true else _).
Qed.

Lemma init_invalid ps ss b1 b2 eps bc :
  invalid_configuration ss b1 b2 bc ->
  __init__ ps ss b1 b2 eps bc = inl ValueError.
Proof.
  unfold invalid_configuration, __init__. intros H.
  destruct (Rlt_dec ss 0); auto.
  destruct (Rlt_dec b1 0); auto.
  destruct (Rlt_dec b2 0), bc; simpl; auto;
    destruct H as [H|[H|[H Hb]]]; try lra; discriminate.
Qed.

Lemma valid_or_invalid ss b1 b2 bc :
  invalid_configuration ss b1 b2 bc
  \/ (0 <= ss /\ 0 <= b1 /\ (0 <= b2 \/ bc = false)).
Proof.
  unfold invalid_configuration.
  destruct (Rlt_dec ss 0); [tauto|].
  destruct (Rlt_dec b1 0); [tauto|].
  destruct (Rlt_dec b2 0), bc; [tauto| | |]; right; repeat split; try lra; auto;
    left; lra.
Qed.

(** ** The step counter *)

Lemma bump_step_counter (s : State) :
  step_counter (bump_step s) = S (step_counter s).
Proof.
  unfold bump_step, step_counter. now destruct (st_step s) as [[|n]|].
Qed.

(** ** The first step without bias correction *)

Section FirstStep.

Variable g : ParamGroup.
Hypothesis no_correction : bias_correction g = false.

(** Element by element, lines 63-77 on zero moments compute
    [first_step_value]. *)
Lemma first_update_elements (d gr : Tensor.t) :
  length gr = length d ->
  Tensor.zip_with Rplus d
    (Tensor.scalar_mul (- stepsize g)
       (Tensor.zip_with Rdiv
          (Tensor.zip_with Rplus (Tensor.mul_ (Tensor.zeros_like d) (bias_m1 g))
             (Tensor.mul_scalar gr (1 - bias_m1 g)))
          (Tensor.add_scalar
             (Tensor.sqrt_
                (Tensor.zip_with Rplus (Tensor.mul_ (Tensor.zeros_like d) (bias_m2 g))
                   (Tensor.mul_scalar (Tensor.pow_ gr 2) (1 - bias_m2 g))))
             (epsilon g))))
  = Tensor.zip_with (first_step_value g) d gr.
Proof.
  revert gr; induction d as [|a d IH]; intros [|b gr]; simpl; try discriminate; auto.
  intros [= H]. f_equal.
  - unfold first_step_value.
    replace (0 * bias_m2 g + b * (b * 1) * (1 - bias_m2 g))
      with ((1 - bias_m2 g) * b ^ 2) by ring.
    unfold Rdiv. ring.
  - apply IH, H.
Qed.

Lemma update_param_first (s : State) (p : Param) (gr : Tensor.t) :
  step_counter s = 1%nat ->
  length gr = length (data p) ->
  exists s',
    update_param g s p gr
    = mkFrame s' (Tensor.zip_with (first_step_value g) (data p) gr)
              (Tensor.pow_ gr 2) None
    /\ step_counter s' = 1%nat.
Proof.
  intros Hs Hl.
  unfold update_param, corrected_moments, init_moments. rewrite Hs. simpl.
  unfold update_first, andthen. simpl.
  unfold Tensor.add_. rewrite inplace_same_shape by shapes.
  simpl. unfold update_second. simpl.
  unfold Tensor.add_. rewrite inplace_same_shape by shapes.
  simpl. unfold correct_bias. rewrite no_correction. simpl.
  unfold apply_update. simpl.
  unfold Tensor.divide_. rewrite inplace_same_shape by shapes.
  unfold Tensor.add_. rewrite inplace_same_shape by shapes.
  rewrite first_update_elements by exact Hl.
  eexists. split; [reflexivity|]. simpl. exact Hs.
Qed.

Lemma step_params_first (s : State) (ps : list Param) :
  step_counter s = 1%nat ->
  Forall grad_matches ps ->
  exists s' ps',
    step_params g s ps = (s', ps', None)
    /\ step_counter s' = 1%nat
    /\ map data ps' = map (expected_first_step g) ps.
Proof.
  intros Hs Hps. revert s Hs.
  induction Hps as [|p ps Hp _ IH]; intros s Hs.
  - exists s, []. simpl. auto.
  - unfold grad_matches in Hp. simpl. unfold step_param.
    destruct (grad p) as [gr|] eqn:Eg; [|contradiction].
    destruct (update_param_first s p gr Hs Hp) as (s1 & E1 & Hs1).
    rewrite E1. simpl.
    destruct (IH s1 Hs1) as (s2 & ps2 & E2 & Hs2 & Hd).
    rewrite E2. exists s2. eexists. split; [reflexivity|]. split; [exact Hs2|].
    simpl. unfold expected_first_step at 1. rewrite Eg. now rewrite Hd.
Qed.

End FirstStep.

Lemma step_groups_first (s : State) (gs : list ParamGroup) :
  step_counter s = 1%nat ->
  Forall plain_group gs ->
  exists s' gs',
    step_groups s gs = (s', gs', None)
    /\ all_data gs' = map (fun g => map (expected_first_step g) (params g)) gs.
Proof.
  intros Hs Hgs. revert s Hs.
  induction Hgs as [|g gs [Hb Hp] _ IH]; intros s Hs.
  - exists s, []. auto.
  - destruct (step_params_first g Hb s (params g) Hs Hp) as (s1 & ps1 & E1 & Hs1 & Hd).
    destruct (IH s1 Hs1) as (s2 & gs2 & E2 & Hd2).
    simpl. rewrite E1, E2. do 2 eexists. split; [reflexivity|].
    simpl. now rewrite Hd, Hd2.
Qed.

Lemma step_first_general (o : Optimizer) (closure : option R) :
  step_counter (state o) = 0%nat ->
  Forall plain_group (param_groups o) ->
  snd (step o closure) = Returned closure
  /\ all_data (param_groups (fst (step o closure)))
     = map (fun g => map (expected_first_step g) (params g)) (param_groups o).
Proof.
  intros H0 Hg. unfold step.
  destruct (step_groups_first (bump_step (state o)) (param_groups o))
    as (s' & gs' & E & Hd); auto.
  - now rewrite bump_step_counter, H0.
  - rewrite E. simpl. auto.
Qed.

Lemma scenario_init :
  __init__ [mkParam [0] (Some [1])] 0.1 0.9 0.999 1e-8 false
  = inr (mkOpt [scenario_group] empty_state).
Proof. apply init_valid; discriminate || lra || (right; reflexivity). Qed.

Lemma scenario_value :
  Rabs (first_step_value scenario_group 0 1 - (- 0.3162)) < 0.0001.
Proof.
  unfold first_step_value, scenario_group;
    cbn [stepsize bias_m1 bias_m2 epsilon].
  replace ((1 - 0.999) * 1 ^ 2) with 0.001 by lra.
  assert (Hsq : sqrt 0.001 * sqrt 0.001 = 0.001) by (apply sqrt_def; lra).
  assert (Hpos : 0 <= sqrt 0.001) by apply sqrt_pos.
  set (r := sqrt 0.001) in *.
  assert (Hlo : 0.03162 < r) by nra.
  assert (Hhi : r < 0.03163) by nra.
  set (d := r + 1e-8) in *.
  assert (Hd : 0 < d) by (unfold d; lra).
  assert (Hd1 : d < 0.031631) by (unfold d; lra).
  assert (Hd2 : 0.03162 < d) by (unfold d; lra).
  clearbody d.
  assert (Hinv : / d * d = 1) by (apply Rinv_l; lra).
  assert (Hy : 0 < / d) by (apply Rinv_0_lt_compat; lra).
  unfold Rdiv. set (y := / d) in *. clearbody y.
  assert (Hyhi : y < 31.63) by nra.
  assert (Hylo : 31.61 < y) by nra.
  apply Rabs_def1; lra.
Qed.

(** C1.  On an optimizer that has not stepped yet, whose groups all have bias
    correction off and whose parameters all carry a gradient of their own
    shape, one call of [step] returns and leaves in every parameter, element
    by element, [p - stepsize * ((1 - b1) * g) / (sqrt ((1 - b2) * g^2) +
    epsilon)].  With stepsize 0.1, decays 0.9 and 0.999, epsilon 1e-8,
    parameter 0.0 and gradient 1.0 the constructor succeeds and the value
    after the first step is within 0.0001 of -0.3162. *)
Theorem first_step_without_bias_correction :
  (forall (o : Optimizer) (closure : option R),
      step_counter (state o) = 0%nat ->
      Forall plain_group (param_groups o) ->
      snd (step o closure) = Returned closure
      /\ all_data (param_groups (fst (step o closure)))
         = map (fun g => map (expected_first_step g) (params g)) (param_groups o))
  /\ (exists o x,
         __init__ [mkParam [0] (Some [1])] 0.1 0.9 0.999 1e-8 false = inr o
         /\ all_data (param_groups (fst (step o None))) = [[[x]]]
         /\ x = 0 - 0.1 * ((1 - 0.9) * 1) / (sqrt ((1 - 0.999) * 1 ^ 2) + 1e-8)
         /\ Rabs (x - (- 0.3162)) < 0.0001).
Proof.
  split; [exact step_first_general|].
  exists (mkOpt [scenario_group] empty_state), (first_step_value scenario_group 0 1).
  split; [exact scenario_init|].
  split; [|split; [reflexivity | exact scenario_value]].
  destruct (step_first_general (mkOpt [scenario_group] empty_state) None) as [_ H].
  - reflexivity.
  - repeat constructor.
  - rewrite H. reflexivity.
Qed.

(** The general statement of C1 at the specification's scenario. *)
Lemma first_step_without_bias_correction_witness :
  step_counter (state (mkOpt [scenario_group] empty_state)) = 0%nat
  /\ Forall plain_group (param_groups (mkOpt [scenario_group] empty_state))
  /\ snd (step (mkOpt [scenario_group] empty_state) None) = Returned None.
Proof.
  split; [reflexivity|].
  assert (H : Forall plain_group (param_groups (mkOpt [scenario_group] empty_state))).
  { repeat constructor. }
  split; [exact H|].
  apply (proj1 first_step_without_bias_correction
           (mkOpt [scenario_group] empty_state) None); [reflexivity | exact H].
Defined.

(** ** Construction: C2 and C10 *)

(** C2.  On a list of parameters that is not empty, the constructor raises
    (a [ValueError]) exactly when stepsize < 0, or bias_m1 < 0, or
    bias_m2 < 0 with bias correction enabled; for all other hyperparameters
    it completes and returns the optimizer. *)
Theorem init_raises_iff_invalid :
  forall ps ss b1 b2 eps bc,
    ps <> [] ->
    (__init__ ps ss b1 b2 eps bc = inl ValueError <-> invalid_configuration ss b1 b2 bc)
    /\ (~ invalid_configuration ss b1 b2 bc <->
        __init__ ps ss b1 b2 eps bc
        = inr (mkOpt [mkGroup ps ss b1 b2 eps bc] empty_state)).
Proof.
  intros ps ss b1 b2 eps bc Hps.
  destruct (valid_or_invalid ss b1 b2 bc) as [Hi | (Hs & H1 & H2)].
  - rewrite (init_invalid ps ss b1 b2 eps bc Hi). split; split; intros.
    + exact Hi.
    + reflexivity.
    + contradiction.
    + discriminate.
  - rewrite (init_valid ps ss b1 b2 eps bc Hps Hs H1 H2).
    assert (Hn : ~ invalid_configuration ss b1 b2 bc).
    { unfold invalid_configuration.
      intros [H|[H|[H Hb]]]; try lra. destruct H2; [lra | congruence]. }
    split; split; intros; auto; try discriminate. contradiction.
Qed.

(** C2 on one parameter: a negative second decay raises with bias
    correction and is accepted without. *)
Lemma init_raises_iff_invalid_witness :
  __init__ [mkParam [0] (Some [1])] 0.001 0.9 (-1) 10e-8 true = inl ValueError
  /\ __init__ [mkParam [0] (Some [1])] 0.001 0.9 (-1) 10e-8 false
     = inr (mkOpt [mkGroup [mkParam [0] (Some [1])] 0.001 0.9 (-1) 10e-8 false]
                  empty_state).
Proof.
  split.
  - apply (proj1 (init_raises_iff_invalid [mkParam [0] (Some [1])]
                    0.001 0.9 (-1) 10e-8 true ltac:(discriminate))).
    right; right. split; [lra | reflexivity].
  - apply (proj2 (init_raises_iff_invalid [mkParam [0] (Some [1])]
                    0.001 0.9 (-1) 10e-8 false ltac:(discriminate))).
    intros [H|[H|[_ H]]]; [lra | lra | discriminate].
Defined.

(** C10.  No check reads epsilon: on a list of parameters that is not empty,
    whenever the other hyperparameters pass the two checks, the constructor
    succeeds for every epsilon, zero and negative values included, and
    stores it as given. *)
Theorem init_accepts_any_epsilon :
  forall ps ss b1 b2 bc eps,
    ps <> [] ->
    0 <= ss -> 0 <= b1 -> 0 <= b2 \/ bc = false ->
    __init__ ps ss b1 b2 eps bc
    = inr (mkOpt [mkGroup ps ss b1 b2 eps bc] empty_state).
Proof. intros. now apply init_valid. Qed.

Lemma init_accepts_any_epsilon_witness :
  __init__ [mkParam [0] (Some [1])] 0.001 0.9 0.999 (-1) true
  = inr (mkOpt [mkGroup [mkParam [0] (Some [1])] 0.001 0.9 0.999 (-1) true]
               empty_state)
  /\ __init__ [mkParam [0] None] 0.001 0.9 0.999 0 true
     = inr (mkOpt [mkGroup [mkParam [0] None] 0.001 0.9 0.999 0 true] empty_state).
Proof.
  split; apply init_accepts_any_epsilon; discriminate || lra || (left; lra).
Defined.

(** ** The step counter: C6 *)

Section StepKept.

Variable g : ParamGroup.

Lemma init_moments_step s p : st_step (init_moments s p) = st_step s.
Proof. unfold init_moments. now destruct (Nat.eqb _ _). Qed.

Lemma update_first_step fr :
  st_step (f_state (update_first g fr)) = st_step (f_state fr).
Proof.
  unfold update_first.
  destruct (first_moment_estimate _); [destruct (Tensor.add_ _ _)|]; reflexivity.
Qed.

Lemma update_second_step fr :
  st_step (f_state (update_second g fr)) = st_step (f_state fr).
Proof.
  unfold update_second.
  destruct (second_moment_estimate _); [destruct (Tensor.add_ _ _)|]; reflexivity.
Qed.

Lemma correct_bias_step fr :
  st_step (f_state (correct_bias g fr)) = st_step (f_state fr).
Proof.
  unfold correct_bias.
  destruct (bias_correction g); auto.
  destruct (first_moment_estimate (f_state fr)), (second_moment_estimate (f_state fr)); reflexivity.
Qed.

Lemma apply_update_step fr :
  st_step (f_state (apply_update g fr)) = st_step (f_state fr).
Proof.
  unfold apply_update.
  destruct (first_moment_estimate (f_state fr)), (second_moment_estimate (f_state fr)); try reflexivity.
  destruct (Tensor.divide_ _ _); [|reflexivity].
  destruct (Tensor.add_ _ _); reflexivity.
Qed.

Lemma andthen_step fr k :
  (forall fr', st_step (f_state (k fr')) = st_step (f_state fr')) ->
  st_step (f_state (fr >>= k)) = st_step (f_state fr).
Proof. intros H. unfold andthen. destruct (f_exn fr); auto. Qed.

Lemma update_param_step s p gr :
  st_step (f_state (update_param g s p gr)) = st_step s.
Proof.
  unfold update_param, corrected_moments.
  rewrite andthen_step by apply apply_update_step.
  rewrite andthen_step by apply correct_bias_step.
  rewrite andthen_step by apply update_second_step.
  rewrite andthen_step by apply update_first_step.
  apply init_moments_step.
Qed.

Lemma step_param_step s p :
  st_step (fst (fst (step_param g s p))) = st_step s.
Proof.
  unfold step_param. destruct (grad p); simpl; auto using update_param_step.
Qed.

Lemma step_params_step ps : forall s,
  st_step (fst (fst (step_params g s ps))) = st_step s.
Proof.
  induction ps as [|p ps IH]; intros s; simpl; auto.
  pose proof (step_param_step s p) as Hp.
  destruct (step_param g s p) as [[s1 p1] [e|]]; simpl in *; auto.
  specialize (IH s1).
  destruct (step_params g s1 ps) as [[s2 ps2] e]; simpl in *. congruence.
Qed.

End StepKept.

Lemma step_groups_step gs : forall s,
  st_step (fst (fst (step_groups s gs))) = st_step s.
Proof.
  induction gs as [|g gs IH]; intros s; simpl; auto.
  pose proof (step_params_step g (params g) s) as Hp.
  destruct (step_params g s (params g)) as [[s1 ps1] [e|]]; simpl in *; auto.
  specialize (IH s1).
  destruct (step_groups s1 gs) as [[s2 gs2] e]; simpl in *. congruence.
Qed.

Lemma step_state_step o closure :
  st_step (state (fst (step o closure))) = st_step (bump_step (state o)).
Proof.
  unfold step.
  pose proof (step_groups_step (param_groups o) (bump_step (state o))) as H.
  destruct (step_groups _ _) as [[s' gs'] [e|]]; simpl in *; exact H.
Qed.

Lemma step_counter_succ o closure :
  step_counter (state (fst (step o closure))) = S (step_counter (state o)).
Proof.
  rewrite <- bump_step_counter. unfold step_counter.
  now rewrite step_state_step.
Qed.

(** C6.  A constructed optimizer has counter 0; every call of [step],
    whether it returns or raises and whatever its parameters are, leaves the
    counter one higher, so the first call leaves 1, [n] calls leave [n] more,
    and the counter never decreases. *)
Theorem step_counter_increments_by_one :
  (forall ps ss b1 b2 eps bc o,
      __init__ ps ss b1 b2 eps bc = inr o ->
      step_counter (state o) = 0%nat
      /\ forall closure, step_counter (state (fst (step o closure))) = 1%nat)
  /\ (forall o closure,
         step_counter (state (fst (step o closure))) = S (step_counter (state o)))
  /\ (forall o n,
         step_counter (state (Nat.iter n (fun o' => fst (step o' None)) o))
         = (n + step_counter (state o))%nat).
Proof.
  split; [|split].
  - intros ps ss b1 b2 eps bc o H.
    assert (H0 : step_counter (state o) = 0%nat).
    { unfold __init__ in H.
      destruct (Rlt_dec ss 0); [discriminate|].
      destruct (if Rlt_dec b1 0 then true else _); [discriminate|].
      destruct ps; [discriminate|]. now injection H as <-. }
    split; [exact H0|]. intros closure. now rewrite step_counter_succ, H0.
  - exact step_counter_succ.
  - intros o n. induction n as [|n IH]; simpl; auto.
    now rewrite step_counter_succ, IH.
Qed.

Lemma step_counter_increments_by_one_witness :
  step_counter (state (mkOpt [scenario_group] empty_state)) = 0%nat
  /\ step_counter (state (fst (step (mkOpt [scenario_group] empty_state) None)))
     = 1%nat.
Proof.
  destruct (proj1 step_counter_increments_by_one _ _ _ _ _ _ _ scenario_init)
    as [H0 H1].
  split; [exact H0 | exact (H1 None)].
Defined.

(** ** Parameters without gradient: C3 *)

Lemma step_param_without_grad g s p :
  grad p = None -> step_param g s p = (s, p, Some AttributeError).
Proof. intros H. unfold step_param. now rewrite H. Qed.

(** C3.  On a parameter without gradient the loop body does not skip: reading
    [param.grad.data] raises, so the call ends with an [AttributeError]
    (the counter already incremented, the parameter and the moments
    untouched). *)
Theorem step_without_gradient_raises :
  snd (step frozen_optimizer None) = Raised AttributeError
  /\ all_data (param_groups (fst (step frozen_optimizer None))) = [[[5]]]
  /\ moment_shapes (state (fst (step frozen_optimizer None))) = (None, None)
  /\ step_counter (state (fst (step frozen_optimizer None))) = 1%nat.
Proof. repeat split. Qed.

(** ** Bias correction at the first step: C7 *)

Section Cancellation.

Variable b : R.
Hypothesis b_not_one : b <> 1.

Lemma corrected_first_elements (d gr : Tensor.t) :
  length gr = length d ->
  Tensor.divide_scalar_
    (Tensor.zip_with Rplus (Tensor.mul_ (Tensor.zeros_like d) b)
       (Tensor.mul_scalar gr (1 - b)))
    (1 - b ^ 1)
  = gr.
Proof.
  revert gr; induction d as [|a d IH]; intros [|x gr]; simpl; try discriminate; auto.
  intros [= H]. f_equal.
  - field. lra.
  - apply IH, H.
Qed.

End Cancellation.

(** C7.  With bias correction on and the counter at 1, lines 55-72 leave, for
    a parameter with gradient [gr] of its shape and decays different from 1,
    the first moment equal to [gr] and the second moment equal to the
    element-wise square of [gr]. *)
Theorem bias_correction_cancels_at_first_step :
  forall (g : ParamGroup) (s : State) (p : Param) (gr : Tensor.t),
    bias_correction g = true ->
    step_counter s = 1%nat ->
    grad p = Some gr ->
    length gr = length (data p) ->
    bias_m1 g <> 1 ->
    bias_m2 g <> 1 ->
    f_exn (corrected_moments g s p gr) = None
    /\ first_moment_estimate (f_state (corrected_moments g s p gr)) = Some gr
    /\ second_moment_estimate (f_state (corrected_moments g s p gr))
       = Some (map (fun x => x ^ 2) gr).
Proof.
  intros g s p gr Hb Hs _ Hl H1 H2.
  unfold corrected_moments, init_moments. rewrite Hs. simpl.
  unfold update_first, andthen. simpl.
  unfold Tensor.add_. rewrite inplace_same_shape by shapes.
  simpl. unfold update_second. simpl.
  unfold Tensor.add_. rewrite inplace_same_shape by shapes.
  simpl. unfold correct_bias. rewrite Hb. simpl.
  unfold step_counter in *. simpl. rewrite Hs.
  rewrite corrected_first_elements by assumption.
  change (map (fun a : R => a * (a * 1)) gr) with (Tensor.pow_ gr 2).
  rewrite corrected_first_elements by (auto; shapes).
  auto.
Qed.

Lemma bias_correction_cancels_at_first_step_witness :
  first_moment_estimate
    (f_state (corrected_moments
                (mkGroup [mkParam [0] (Some [3])] 0.001 0.9 0.999 10e-8 true)
                (mkState (Some 1%nat) None None)
                (mkParam [0] (Some [3])) [3]))
  = Some [3].
Proof.
  apply (bias_correction_cancels_at_first_step
           (mkGroup [mkParam [0] (Some [3])] 0.001 0.9 0.999 10e-8 true)
           (mkState (Some 1%nat) None None) (mkParam [0] (Some [3])) [3]);
    try reflexivity; simpl; lra.
Defined.

(** ** One pair of moments for all parameters: C4 *)

(** C4.  With parameters of shapes 2 and 1, the first call returns and
    leaves the one stored pair of moments with shape 1, which is not the
    shape of the first parameter; the next call, on gradients of the
    parameters' shapes, then raises on the first parameter. *)
Theorem moments_are_shared_between_parameters :
  snd (step two_shapes_optimizer None) = Returned None
  /\ map (map Tensor.shape) (all_data (param_groups (fst (step two_shapes_optimizer None))))
     = [[2%nat; 1%nat]]
  /\ moment_shapes (state (fst (step two_shapes_optimizer None)))
     = (Some 1%nat, Some 1%nat)
  /\ snd (step (backward (fst (step two_shapes_optimizer None))
                         [[Some [1; 1]; Some [1]]]) None)
     = Raised RuntimeError.
Proof. repeat split. Qed.

(** ** What the stored moments and the gradient hold after a step: C5, C8 *)

Lemma sqrt_4 : sqrt 4 = 2.
Proof. apply sqrt_lem_1; lra. Qed.

Lemma plain_step_state :
  state (fst (step plain_optimizer None))
  = mkState (Some 1%nat) (Some [2 / 3]) (Some [2]).
Proof.
  unfold step, plain_optimizer. simpl.
  replace (0 * (3 / 4) + 4 * (4 * 1) * (1 - 3 / 4)) with 4 by lra.
  rewrite sqrt_4. unfold set_first, set_second. simpl.
  do 3 f_equal. lra.
Qed.

(** C5.  Without bias correction, after the first step on gradient 4 with
    decays 1/2 and 3/4 the stored first moment is 2/3 and the stored second
    moment is 2, where the recurrences from zero moments give 2 and 4. *)
Theorem stored_moments_are_not_the_moving_averages :
  snd (step plain_optimizer None) = Returned None
  /\ first_moment_estimate (state (fst (step plain_optimizer None))) = Some [2 / 3]
  /\ second_moment_estimate (state (fst (step plain_optimizer None))) = Some [2]
  /\ ema (1 / 2) 0 4 = 2
  /\ ema (3 / 4) 0 (4 ^ 2) = 4
  /\ 2 / 3 <> 2 /\ 2 <> 4.
Proof.
  rewrite plain_step_state. simpl.
  repeat split; unfold ema; try lra.
Qed.

(** C8.  A step squares the gradient in place: the gradient 4 supplied
    before the call reads 16 after it. *)
Theorem step_squares_the_gradient :
  all_grads (param_groups plain_optimizer) = [[Some [4]]]
  /\ all_grads (param_groups (fst (step plain_optimizer None))) = [[Some [16]]]
  /\ snd (step plain_optimizer None) = Returned None.
Proof.
  split; [reflexivity|]. split; [|reflexivity].
  simpl. do 4 f_equal. lra.
Qed.

(** ** Two runs: C9 *)





(** ** What an update leaves in a frame *)

Section FrameFacts.

Variable g : ParamGroup.

Lemma andthen_keeps {A : Type} (f : Frame -> A) fr k :
  (forall fr', f (k fr') = f fr') -> f (fr >>= k) = f fr.
Proof. intros H. unfold andthen. destruct (f_exn fr); auto. Qed.

Lemma update_first_data fr : f_data (update_first g fr) = f_data fr.
Proof.
  unfold update_first.
  destruct (first_moment_estimate _); [destruct (Tensor.add_ _ _)|]; reflexivity.
Qed.

Lemma update_second_data fr : f_data (update_second g fr) = f_data fr.
Proof.
  unfold update_second.
  destruct (second_moment_estimate _); [destruct (Tensor.add_ _ _)|]; reflexivity.
Qed.

Lemma correct_bias_data fr : f_data (correct_bias g fr) = f_data fr.
Proof.
  unfold correct_bias. destruct (bias_correction g); auto.
  destruct (first_moment_estimate (f_state fr)), (second_moment_estimate (f_state fr));
    reflexivity.
Qed.

Lemma corrected_moments_data s p gr : f_data (corrected_moments g s p gr) = data p.
Proof.
  unfold corrected_moments.
  rewrite (andthen_keeps f_data) by apply correct_bias_data.
  rewrite (andthen_keeps f_data) by apply update_second_data.
  rewrite (andthen_keeps f_data) by apply update_first_data.
  reflexivity.
Qed.

Lemma apply_update_raise_data fr e :
  f_exn (apply_update g fr) = Some e -> f_data (apply_update g fr) = f_data fr.
Proof.
  unfold apply_update.
  destruct (first_moment_estimate (f_state fr)), (second_moment_estimate (f_state fr));
    try reflexivity.
  destruct (Tensor.divide_ _ _); [|reflexivity].
  destruct (Tensor.add_ _ _); [discriminate | reflexivity].
Qed.

Lemma apply_update_data_shape fr :
  length (f_data (apply_update g fr)) = length (f_data fr).
Proof.
  unfold apply_update.
  destruct (first_moment_estimate (f_state fr)), (second_moment_estimate (f_state fr));
    try reflexivity.
  destruct (Tensor.divide_ _ _); [|reflexivity].
  destruct (Tensor.add_ _ _) eqn:E; [|reflexivity].
  exact (inplace_shape _ _ _ _ E).
Qed.

Lemma update_param_raise_keeps_data s p gr e :
  f_exn (update_param g s p gr) = Some e ->
  f_data (update_param g s p gr) = data p.
Proof.
  unfold update_param, andthen.
  destruct (f_exn (corrected_moments g s p gr)) eqn:E; intros H.
  - apply corrected_moments_data.
  - rewrite (apply_update_raise_data _ _ H). apply corrected_moments_data.
Qed.

Lemma update_param_data_shape s p gr :
  length (f_data (update_param g s p gr)) = length (data p).
Proof.
  unfold update_param, andthen.
  destruct (f_exn (corrected_moments g s p gr)).
  - now rewrite corrected_moments_data.
  - now rewrite apply_update_data_shape, corrected_moments_data.
Qed.

(** The gradient: only line 66 writes it. *)

Lemma update_first_grad fr : f_grad (update_first g fr) = f_grad fr.
Proof.
  unfold update_first.
  destruct (first_moment_estimate _); [destruct (Tensor.add_ _ _)|]; reflexivity.
Qed.

Lemma update_second_grad fr :
  f_exn (update_second g fr) = None ->
  f_grad (update_second g fr) = Tensor.pow_ (f_grad fr) 2.
Proof.
  unfold update_second.
  destruct (second_moment_estimate _); [destruct (Tensor.add_ _ _)|];
    simpl; intros; reflexivity || discriminate.
Qed.

Lemma correct_bias_grad fr : f_grad (correct_bias g fr) = f_grad fr.
Proof.
  unfold correct_bias. destruct (bias_correction g); auto.
  destruct (first_moment_estimate (f_state fr)), (second_moment_estimate (f_state fr));
    reflexivity.
Qed.

Lemma apply_update_grad fr : f_grad (apply_update g fr) = f_grad fr.
Proof.
  unfold apply_update.
  destruct (first_moment_estimate (f_state fr)), (second_moment_estimate (f_state fr));
    try reflexivity.
  destruct (Tensor.divide_ _ _); [|reflexivity].
  destruct (Tensor.add_ _ _); reflexivity.
Qed.

Lemma andthen_return fr k :
  f_exn (fr >>= k) = None -> f_exn fr = None /\ fr >>= k = k fr.
Proof.
  unfold andthen. destruct (f_exn fr) eqn:E; intros H; [congruence | auto].
Qed.

Lemma update_param_return_squares_grad s p gr :
  f_exn (update_param g s p gr) = None ->
  f_grad (update_param g s p gr) = Tensor.pow_ gr 2.
Proof.
  unfold update_param, corrected_moments. intros H.
  destruct (andthen_return _ _ H) as [H1 E1]. rewrite E1, apply_update_grad.
  destruct (andthen_return _ _ H1) as [H2 E2]. rewrite E2, correct_bias_grad.
  destruct (andthen_return _ _ H2) as [H3 E3]. rewrite E3 in H2 |- *.
  rewrite (update_second_grad _ H2).
  destruct (andthen_return _ _ H3) as [_ E4]. rewrite E4, update_first_grad.
  reflexivity.
Qed.

End FrameFacts.

(** ** The loops *)

Section ParamLoop.

Variable g : ParamGroup.

Lemma step_param_data_shape s p :
  length (data (snd (fst (step_param g s p)))) = length (data p).
Proof.
  unfold step_param. destruct (grad p); simpl; auto using update_param_data_shape.
Qed.

Lemma step_param_raise_keeps_data s p s' p' e :
  step_param g s p = (s', p', Some e) -> data p' = data p.
Proof.
  unfold step_param. destruct (grad p) as [gr|].
  - intros [= _ <- H]. simpl. eapply update_param_raise_keeps_data, H.
  - now intros [= _ <- _].
Qed.

Lemma step_param_return_grad s p s' p' :
  step_param g s p = (s', p', None) -> grad p' = squared (grad p).
Proof.
  unfold step_param. destruct (grad p) as [gr|]; [|discriminate].
  intros [= _ <- H]. simpl. now rewrite update_param_return_squares_grad.
Qed.

Lemma step_params_length ps : forall s,
  length (snd (fst (step_params g s ps))) = length ps.
Proof.
  induction ps as [|p ps IH]; intros s; simpl; auto.
  destruct (step_param g s p) as [[s1 p1] [e|]]; simpl; auto.
  specialize (IH s1). destruct (step_params g s1 ps) as [[s2 ps2] e]; simpl in *.
  now rewrite IH.
Qed.

Lemma step_params_shapes ps : forall s,
  map (fun p => Tensor.shape (data p)) (snd (fst (step_params g s ps)))
  = map (fun p => Tensor.shape (data p)) ps.
Proof.
  induction ps as [|p ps IH]; intros s; simpl; auto.
  pose proof (step_param_data_shape s p) as Hp.
  destruct (step_param g s p) as [[s1 p1] [e|]]; simpl in *.
  - unfold Tensor.shape. now rewrite Hp.
  - specialize (IH s1). destruct (step_params g s1 ps) as [[s2 ps2] e]; simpl in *.
    unfold Tensor.shape in *. now rewrite Hp, IH.
Qed.

Lemma step_params_return_grads ps : forall s s' ps',
  step_params g s ps = (s', ps', None) ->
  map grad ps' = map squared (map grad ps).
Proof.
  induction ps as [|p ps IH]; intros s s' ps'; simpl.
  - now intros [= _ <-].
  - destruct (step_param g s p) as [[s1 p1] [e|]] eqn:E1; [discriminate|].
    destruct (step_params g s1 ps) as [[s2 ps2] e] eqn:E2.
    intros [= _ <- ->]. simpl.
    now rewrite (step_param_return_grad _ _ _ _ E1), (IH _ _ _ E2).
Qed.

Lemma step_params_missing_grad ps : forall s p,
  In p ps -> grad p = None -> snd (step_params g s ps) <> None.
Proof.
  induction ps as [|q ps IH]; intros s p [].
  - subst q. intros Hg. simpl. rewrite (step_param_without_grad g s p Hg). discriminate.
  - intros Hg. simpl.
    destruct (step_param g s q) as [[s1 q1] [e|]]; [discriminate|].
    specialize (IH s1 p H Hg).
    destruct (step_params g s1 ps) as [[s2 ps2] e]; exact IH.
Qed.

Lemma step_params_raise ps : forall s s' ps' e,
  step_params g s ps = (s', ps', Some e) ->
  exists done p rest s1 done' p',
    ps = done ++ p :: rest
    /\ step_params g s done = (s1, done', None)
    /\ step_param g s1 p = (s', p', Some e)
    /\ ps' = done' ++ p' :: rest.
Proof.
  induction ps as [|p ps IH]; intros s s' ps' e; simpl; [discriminate|].
  destruct (step_param g s p) as [[s1 p1] [e1|]] eqn:E1.
  - intros [= <- <- <-]. exists [], p, ps, s, [], p1. simpl. auto.
  - destruct (step_params g s1 ps) as [[s2 ps2] e2] eqn:E2.
    intros [= <- <- ->].
    destruct (IH _ _ _ _ E2) as (d & q & rest & s3 & d' & q' & -> & Hd & Hq & ->).
    exists (p :: d), q, rest, s3, (p1 :: d'), q'. simpl.
    rewrite E1, Hd. auto.
Qed.

End ParamLoop.

Lemma with_params_hyper g ps : hyper (with_params g ps) = hyper g.
Proof. reflexivity. Qed.

Lemma step_groups_hyper gs : forall s,
  map hyper (snd (fst (step_groups s gs))) = map hyper gs.
Proof.
  induction gs as [|g gs IH]; intros s; simpl; auto.
  destruct (step_params g s (params g)) as [[s1 ps1] [e|]]; simpl; auto.
  specialize (IH s1). destruct (step_groups s1 gs) as [[s2 gs2] e]; simpl in *.
  now rewrite IH.
Qed.

Lemma step_groups_shapes gs : forall s,
  map (map Tensor.shape) (all_data (snd (fst (step_groups s gs))))
  = map (map Tensor.shape) (all_data gs).
Proof.
  induction gs as [|g gs IH]; intros s; simpl; auto.
  pose proof (step_params_shapes g (params g) s) as Hp.
  rewrite !map_map.
  destruct (step_params g s (params g)) as [[s1 ps1] [e|]]; simpl in *.
  - now rewrite map_map, Hp.
  - specialize (IH s1). destruct (step_groups s1 gs) as [[s2 gs2] e]; simpl in *.
    now rewrite map_map, Hp, IH.
Qed.

Lemma step_groups_return_grads gs : forall s s' gs',
  step_groups s gs = (s', gs', None) ->
  all_grads gs' = map (map squared) (all_grads gs).
Proof.
  induction gs as [|g gs IH]; intros s s' gs'; simpl.
  - now intros [= _ <-].
  - destruct (step_params g s (params g)) as [[s1 ps1] [e|]] eqn:E1; [discriminate|].
    destruct (step_groups s1 gs) as [[s2 gs2] e] eqn:E2.
    intros [= _ <- ->]. simpl.
    now rewrite (step_params_return_grads _ _ _ _ _ E1), (IH _ _ _ E2).
Qed.

Lemma step_groups_missing_grad gs : forall s g p,
  In g gs -> In p (params g) -> grad p = None -> snd (step_groups s gs) <> None.
Proof.
  induction gs as [|h gs IH]; intros s g p [].
  - subst h. intros Hp Hg. simpl.
    pose proof (step_params_missing_grad g (params g) s p Hp Hg) as Hn.
    destruct (step_params g s (params g)) as [[s1 ps1] [e|]]; [discriminate|].
    now simpl in Hn.
  - intros Hp Hg. simpl.
    destruct (step_params h s (params h)) as [[s1 ps1] [e|]]; [discriminate|].
    specialize (IH s1 g p H Hp Hg).
    destruct (step_groups s1 gs) as [[s2 gs2] e]; exact IH.
Qed.

Lemma step_groups_raise gs : forall s s' gs' e,
  step_groups s gs = (s', gs', Some e) ->
  exists before g after s1 before' ps',
    gs = before ++ g :: after
    /\ step_groups s before = (s1, before', None)
    /\ step_params g s1 (params g) = (s', ps', Some e)
    /\ gs' = before' ++ with_params g ps' :: after.
Proof.
  induction gs as [|g gs IH]; intros s s' gs' e; simpl; [discriminate|].
  destruct (step_params g s (params g)) as [[s1 ps1] [e1|]] eqn:E1.
  - intros [= <- <- <-]. exists [], g, gs, s, [], ps1. simpl. auto.
  - destruct (step_groups s1 gs) as [[s2 gs2] e2] eqn:E2.
    intros [= <- <- ->].
    destruct (IH _ _ _ _ E2) as (b & h & a & s3 & b' & ps' & -> & Hb & Hh & ->).
    exists (g :: b), h, a, s3, (with_params g ps1 :: b'), ps'. simpl.
    rewrite E1, Hb. auto.
Qed.

(** X1.  Whatever a call of [step] does, it leaves every group with the
    hyperparameters it had and every parameter with the shape it had. *)
Theorem step_keeps_hyperparameters_and_shapes :
  forall (o : Optimizer) (closure : option R),
    map hyper (param_groups (fst (step o closure))) = map hyper (param_groups o)
    /\ map (map Tensor.shape) (all_data (param_groups (fst (step o closure))))
       = map (map Tensor.shape) (all_data (param_groups o)).
Proof.
  intros o closure. unfold step.
  pose proof (step_groups_hyper (param_groups o) (bump_step (state o))) as Hh.
  pose proof (step_groups_shapes (param_groups o) (bump_step (state o))) as Hs.
  destruct (step_groups _ _) as [[s' gs'] [e|]]; simpl in *; auto.
Qed.

(** X2.  When some parameter of some group has no gradient, the call does
    not return: it raises. *)
Theorem step_raises_when_a_gradient_is_missing :
  forall (o : Optimizer) (closure : option R) (g : ParamGroup) (p : Param),
    In g (param_groups o) -> In p (params g) -> grad p = None ->
    exists e, snd (step o closure) = Raised e.
Proof.
  intros o closure g p Hg Hp Hn. unfold step.
  pose proof (step_groups_missing_grad _ (bump_step (state o)) g p Hg Hp Hn) as H.
  destruct (step_groups _ _) as [[s' gs'] [e|]]; simpl in *.
  - now exists e.
  - congruence.
Qed.

Lemma step_raises_when_a_gradient_is_missing_witness :
  exists e,
    snd (step (mkOpt [mkGroup [mkParam [0] (Some [1]); mkParam [5] None]
                              0.001 0.9 0.999 10e-8 true] empty_state) None)
    = Raised e.
Proof.
  apply (step_raises_when_a_gradient_is_missing _ None
           (mkGroup [mkParam [0] (Some [1]); mkParam [5] None]
                    0.001 0.9 0.999 10e-8 true) (mkParam [5] None)).
  - left; reflexivity.
  - right; left; reflexivity.
  - reflexivity.
Defined.

(** X3.  A call that returns hands back the closure's loss and has squared
    every gradient in place, element by element. *)
Theorem returning_step_squares_every_gradient :
  forall (o : Optimizer) (closure loss : option R),
    snd (step o closure) = Returned loss ->
    loss = closure
    /\ all_grads (param_groups (fst (step o closure)))
       = map (map squared) (all_grads (param_groups o)).
Proof.
  intros o closure loss. unfold step.
  destruct (step_groups _ _) as [[s' gs'] [e|]] eqn:E; simpl; [discriminate|].
  intros [= <-]. split; [reflexivity|].
  exact (step_groups_return_grads _ _ _ _ E).
Qed.

Lemma returning_step_squares_every_gradient_witness :
  all_grads (param_groups (fst (step plain_optimizer (Some 7))))
  = map (map squared) (all_grads (param_groups plain_optimizer)).
Proof.
  apply (returning_step_squares_every_gradient plain_optimizer (Some 7) (Some 7)).
  reflexivity.
Defined.

(** X4.  A call that raises stops inside one group at one parameter.  The
    groups before that group and the parameters before that parameter are
    left as the loops leave them when they run through without exception;
    the parameter itself is left as the loop body leaves it when it raises,
    with its data unchanged; the parameters and groups after it are exactly
    as before.  Nothing is rolled back. *)
Theorem raising_step_stops_at_one_parameter :
  forall (o : Optimizer) (closure : option R) (e : exn),
    snd (step o closure) = Raised e ->
    exists before g after done p rest s1 s2 s3 before' done' p',
      param_groups o = before ++ g :: after
      /\ params g = done ++ p :: rest
      /\ step_groups (bump_step (state o)) before = (s1, before', None)
      /\ step_params g s1 done = (s2, done', None)
      /\ step_param g s2 p = (s3, p', Some e)
      /\ data p' = data p
      /\ fst (step o closure)
         = mkOpt (before' ++ with_params g (done' ++ p' :: rest) :: after) s3.
Proof.
  intros o closure e. unfold step.
  destruct (step_groups _ _) as [[s' gs'] [e'|]] eqn:E; simpl; [|discriminate].
  intros [= ->].
  destruct (step_groups_raise _ _ _ _ _ E)
    as (b & g & a & s1 & b' & ps' & Hgs & Hb & Hg & ->).
  destruct (step_params_raise _ _ _ _ _ _ Hg)
    as (d & p & rest & s2 & d' & p' & Hps & Hd & Hp & ->).
  exists b, g, a, d, p, rest, s1, s2, s', b', d', p'.
  repeat split; auto. exact (step_param_raise_keeps_data _ _ _ _ _ _ Hp).
Qed.

(** X4 on two parameters of which the second has no gradient. *)
Lemma raising_step_stops_at_one_parameter_witness :
  exists before g after done p rest s1 s2 s3 before' done' p',
    param_groups half_frozen_optimizer = before ++ g :: after
    /\ params g = done ++ p :: rest
    /\ step_groups (bump_step (state half_frozen_optimizer)) before
       = (s1, before', None)
    /\ step_params g s1 done = (s2, done', None)
    /\ step_param g s2 p = (s3, p', Some AttributeError)
    /\ data p' = data p
    /\ fst (step half_frozen_optimizer None)
       = mkOpt (before' ++ with_params g (done' ++ p' :: rest) :: after) s3.
Proof.
  apply (raising_step_stops_at_one_parameter half_frozen_optimizer None
           AttributeError).
  reflexivity.
Defined.

(** ** The shape of the stored moments *)

Section MomentShapes.

Variable g : ParamGroup.

Lemma update_first_shapes fr :
  moment_shapes (f_state (update_first g fr)) = moment_shapes (f_state fr).
Proof.
  unfold update_first, moment_shapes.
  destruct (first_moment_estimate (f_state fr)) as [m|] eqn:Em;
    [|simpl; now rewrite ?Em].
  destruct (Tensor.add_ _ _) eqn:E; simpl.
  - apply inplace_shape in E. unfold Tensor.shape. rewrite E. now shapes.
  - now shapes.
Qed.

Lemma update_second_shapes fr :
  moment_shapes (f_state (update_second g fr)) = moment_shapes (f_state fr).
Proof.
  unfold update_second, moment_shapes.
  destruct (second_moment_estimate (f_state fr)) as [v|] eqn:Ev;
    [|simpl; now rewrite ?Ev].
  destruct (Tensor.add_ _ _) eqn:E; simpl.
  - apply inplace_shape in E. unfold Tensor.shape. rewrite E. now shapes.
  - now shapes.
Qed.

Lemma correct_bias_shapes fr :
  moment_shapes (f_state (correct_bias g fr)) = moment_shapes (f_state fr).
Proof.
  unfold correct_bias, moment_shapes. destruct (bias_correction g); auto.
  destruct (first_moment_estimate (f_state fr)) eqn:Em,
           (second_moment_estimate (f_state fr)) eqn:Ev; simpl;
    rewrite ?Em, ?Ev; simpl; auto.
  now shapes.
Qed.

Lemma apply_update_shapes fr :
  moment_shapes (f_state (apply_update g fr)) = moment_shapes (f_state fr).
Proof.
  unfold apply_update, moment_shapes.
  destruct (first_moment_estimate (f_state fr)) as [m|] eqn:Em,
           (second_moment_estimate (f_state fr)) as [v|] eqn:Ev; simpl;
    rewrite ?Em, ?Ev; simpl; auto.
  destruct (Tensor.divide_ _ _) eqn:Ed; simpl.
  - apply inplace_shape in Ed.
    destruct (Tensor.add_ _ _); simpl; unfold Tensor.shape; rewrite Ed; now shapes.
  - rewrite Em. simpl. now shapes.
Qed.

Lemma update_param_shapes s p gr :
  moment_shapes (f_state (update_param g s p gr)) = moment_shapes (init_moments s p).
Proof.
  unfold update_param, corrected_moments.
  rewrite (andthen_keeps (fun fr => moment_shapes (f_state fr)))
    by apply apply_update_shapes.
  rewrite (andthen_keeps (fun fr => moment_shapes (f_state fr)))
    by apply correct_bias_shapes.
  rewrite (andthen_keeps (fun fr => moment_shapes (f_state fr)))
    by apply update_second_shapes.
  rewrite (andthen_keeps (fun fr => moment_shapes (f_state fr)))
    by apply update_first_shapes.
  reflexivity.
Qed.

Lemma step_param_shapes_later s p :
  step_counter s <> 1%nat ->
  moment_shapes (fst (fst (step_param g s p))) = moment_shapes s.
Proof.
  intros Hs. unfold step_param. destruct (grad p); simpl; auto.
  rewrite update_param_shapes. unfold init_moments.
  apply Nat.eqb_neq in Hs. now rewrite Hs.
Qed.

Lemma step_params_shapes_later ps : forall s,
  step_counter s <> 1%nat ->
  moment_shapes (fst (fst (step_params g s ps))) = moment_shapes s.
Proof.
  induction ps as [|p ps IH]; intros s Hs; simpl; auto.
  pose proof (step_param_shapes_later s p Hs) as Hp.
  pose proof (step_param_step g s p) as Hc.
  destruct (step_param g s p) as [[s1 p1] [e|]]; simpl in *; auto.
  assert (Hs1 : step_counter s1 <> 1%nat) by (unfold step_counter in *; now rewrite Hc).
  specialize (IH s1 Hs1).
  destruct (step_params g s1 ps) as [[s2 ps2] e]; simpl in *. congruence.
Qed.

Lemma step_param_shapes_first s p s' p' :
  step_counter s = 1%nat ->
  step_param g s p = (s', p', None) ->
  moment_shapes s' = shape_pair (Tensor.shape (data p)).
Proof.
  intros Hs. unfold step_param. destruct (grad p); [|discriminate].
  intros [= <- _ _]. rewrite update_param_shapes. unfold init_moments.
  rewrite Hs. simpl. unfold moment_shapes, shape_pair. simpl. now shapes.
Qed.

Lemma step_params_shapes_first ps : forall s s' ps',
  step_counter s = 1%nat ->
  step_params g s ps = (s', ps', None) ->
  moment_shapes s' = last_shapes ps (moment_shapes s).
Proof.
  induction ps as [|p ps IH]; intros s s' ps' Hs; simpl.
  - now intros [= <- _].
  - pose proof (step_param_step g s p) as Hc.
    destruct (step_param g s p) as [[s1 p1] [e|]] eqn:E1; [discriminate|].
    destruct (step_params g s1 ps) as [[s2 ps2] e] eqn:E2.
    intros [= <- _ ->].
    assert (Hs1 : step_counter s1 = 1%nat)
      by (unfold step_counter in *; simpl in Hc; now rewrite Hc).
    rewrite (IH _ _ _ Hs1 E2).
    now rewrite (step_param_shapes_first _ _ _ _ Hs E1).
Qed.

End MomentShapes.

Lemma step_groups_shapes_later gs : forall s,
  step_counter s <> 1%nat ->
  moment_shapes (fst (fst (step_groups s gs))) = moment_shapes s.
Proof.
  induction gs as [|g gs IH]; intros s Hs; simpl; auto.
  pose proof (step_params_shapes_later g (params g) s Hs) as Hp.
  pose proof (step_params_step g (params g) s) as Hc.
  destruct (step_params g s (params g)) as [[s1 ps1] [e|]]; simpl in *; auto.
  assert (Hs1 : step_counter s1 <> 1%nat) by (unfold step_counter in *; now rewrite Hc).
  specialize (IH s1 Hs1).
  destruct (step_groups s1 gs) as [[s2 gs2] e]; simpl in *. congruence.
Qed.

Lemma step_groups_shapes_first gs : forall s s' gs',
  step_counter s = 1%nat ->
  step_groups s gs = (s', gs', None) ->
  moment_shapes s' = last_shapes (all_params gs) (moment_shapes s).
Proof.
  induction gs as [|g gs IH]; intros s s' gs' Hs; simpl.
  - now intros [= <- _].
  - pose proof (step_params_step g (params g) s) as Hc.
    destruct (step_params g s (params g)) as [[s1 ps1] [e|]] eqn:E1; [discriminate|].
    destruct (step_groups s1 gs) as [[s2 gs2] e] eqn:E2.
    intros [= <- _ ->].
    assert (Hs1 : step_counter s1 = 1%nat)
      by (unfold step_counter in *; simpl in Hc; now rewrite Hc).
    rewrite (IH _ _ _ Hs1 E2).
    rewrite (step_params_shapes_first _ _ _ _ _ Hs E1).
    unfold all_params, last_shapes. simpl. now rewrite fold_left_app.
Qed.

Lemma bump_step_shapes s : moment_shapes (bump_step s) = moment_shapes s.
Proof. unfold bump_step. now destruct (st_step s) as [[|n]|]. Qed.

(** X5.  After a first call that returns, both stored moments have the
    shape of the parameter visited last, whatever the shapes of the
    others. *)
Theorem first_step_leaves_shape_of_last_parameter :
  forall (o : Optimizer) (closure loss : option R) (ps : list Param) (p : Param),
    step_counter (state o) = 0%nat ->
    all_params (param_groups o) = ps ++ [p] ->
    snd (step o closure) = Returned loss ->
    moment_shapes (state (fst (step o closure))) = shape_pair (Tensor.shape (data p)).
Proof.
  intros o closure loss ps p H0 Hps. unfold step.
  destruct (step_groups _ _) as [[s' gs'] [e|]] eqn:E; simpl; [discriminate|].
  intros _.
  rewrite (step_groups_shapes_first _ _ _ _
             ltac:(now rewrite bump_step_counter, H0) E).
  rewrite Hps. unfold last_shapes. now rewrite fold_left_app.
Qed.

Lemma first_step_leaves_shape_of_last_parameter_witness :
  moment_shapes (state (fst (step two_shapes_optimizer None)))
  = shape_pair (Tensor.shape (data (mkParam [0] (Some [1])))).
Proof.
  apply (first_step_leaves_shape_of_last_parameter two_shapes_optimizer None None
           [mkParam [0; 0] (Some [1; 1])] (mkParam [0] (Some [1])));
    reflexivity.
Defined.

(** X6.  From the second call on, no call changes the shapes of the stored
    moments, whether it returns or raises: they are never allocated
    again. *)
Theorem later_steps_keep_moment_shapes :
  forall (o : Optimizer) (closure : option R),
    (1 <= step_counter (state o))%nat ->
    moment_shapes (state (fst (step o closure))) = moment_shapes (state o).
Proof.
  intros o closure H1. unfold step.
  pose proof (step_groups_shapes_later (param_groups o) (bump_step (state o))) as H.
  rewrite bump_step_counter, bump_step_shapes in H.
  destruct (step_groups _ _) as [[s' gs'] [e|]]; simpl in *; apply H; lia.
Qed.

Lemma later_steps_keep_moment_shapes_witness :
  moment_shapes (state (fst (step (fst (step two_shapes_optimizer None)) None)))
  = moment_shapes (state (fst (step two_shapes_optimizer None))).
Proof.
  apply (later_steps_keep_moment_shapes (fst (step two_shapes_optimizer None)) None).
  rewrite step_counter_succ. lia.
Defined.

(** ** One update, element by element *)

(** Equal lists are built element by element from lists of one length. *)
Ltac elementwise d m v gr Hm Hv Hg :=
  let IH := fresh "IH" in
  revert m v gr Hm Hv Hg;
  induction d as [|? d IH]; intros [|? m] [|? v] [|? gr]; simpl;
  intros Hm Hv Hg; try discriminate; try reflexivity;
  injection Hm as Hm; injection Hv as Hv; injection Hg as Hg;
  f_equal; eapply IH; eassumption.

Section Elementwise.

Variable g : ParamGroup.

Lemma update_from_moments (s : State) (d gr m v : Tensor.t) :
  first_moment_estimate s = Some m ->
  second_moment_estimate s = Some v ->
  length m = length d -> length v = length d -> length gr = length d ->
  mkFrame s d gr None
    >>= update_first g >>= update_second g >>= correct_bias g >>= apply_update g
  = mkFrame
      (mkState (st_step s)
         (Some (map3 (stored_first g (step_counter s)) m v gr))
         (Some (Tensor.zip_with (stored_second g (step_counter s)) v gr)))
      (map4 (new_value g (step_counter s)) d m v gr)
      (Tensor.pow_ gr 2) None.
Proof.
  intros Em Ev Hm Hv Hg.
  unfold andthen at 4. simpl.
  unfold update_first. simpl. rewrite Em.
  unfold Tensor.add_. rewrite inplace_same_shape by shapes.
  unfold andthen at 3. simpl.
  unfold update_second. simpl. rewrite Ev.
  unfold Tensor.add_. rewrite inplace_same_shape by shapes.
  unfold andthen at 2. simpl.
  unfold correct_bias, new_value, stored_first, stored_second, moment1, moment2.
  destruct (bias_correction g); simpl.
  - unfold andthen, apply_update. simpl.
    unfold Tensor.divide_. rewrite inplace_same_shape by shapes.
    unfold Tensor.add_. rewrite inplace_same_shape by shapes.
    unfold set_first, set_second, step_counter. simpl.
    clear Em Ev. f_equal; [f_equal; f_equal|].
    + elementwise d m v gr Hm Hv Hg.
    + elementwise d m v gr Hm Hv Hg.
    + elementwise d m v gr Hm Hv Hg.
  - unfold andthen, apply_update. simpl.
    unfold Tensor.divide_. rewrite inplace_same_shape by shapes.
    unfold Tensor.add_. rewrite inplace_same_shape by shapes.
    unfold set_first, set_second, step_counter. simpl.
    clear Em Ev. f_equal; [f_equal; f_equal|].
    + elementwise d m v gr Hm Hv Hg.
    + elementwise d m v gr Hm Hv Hg.
    + elementwise d m v gr Hm Hv Hg.
Qed.

End Elementwise.

Lemma map4_zeros (f : R -> R -> R -> R -> R) (d gr : Tensor.t) :
  map4 f d (Tensor.zeros_like d) (Tensor.zeros_like d) gr
  = Tensor.zip_with (fun a x => f a 0 0 x) d gr.
Proof.
  revert gr; induction d as [|a d IH]; intros [|x gr]; simpl; auto.
  now rewrite IH.
Qed.

Section FirstUpdate.

Variable g : ParamGroup.

Lemma update_param_first_any (s : State) (p : Param) (gr : Tensor.t) :
  step_counter s = 1%nat ->
  length gr = length (data p) ->
  f_exn (update_param g s p gr) = None
  /\ f_data (update_param g s p gr)
     = Tensor.zip_with (fun d x => new_value g 1 d 0 0 x) (data p) gr.
Proof.
  intros Hs Hl. unfold update_param, corrected_moments, init_moments.
  rewrite Hs. simpl Nat.eqb. cbv iota.
  rewrite (update_from_moments g _ (data p) gr
             (Tensor.zeros_like (data p)) (Tensor.zeros_like (data p)))
    by (reflexivity || shapes).
  simpl. split; [reflexivity|].
  change (step_counter _) with (step_counter s). rewrite Hs.
  apply map4_zeros.
Qed.

Lemma step_params_first_any (s : State) (ps : list Param) :
  step_counter s = 1%nat ->
  Forall grad_matches ps ->
  exists s' ps',
    step_params g s ps = (s', ps', None)
    /\ step_counter s' = 1%nat
    /\ map data ps' = map (first_update g) ps.
Proof.
  intros Hs Hps. revert s Hs.
  induction Hps as [|p ps Hp _ IH]; intros s Hs.
  - exists s, []. simpl. auto.
  - unfold grad_matches in Hp. simpl.
    pose proof (step_param_step g s p) as Hc.
    unfold step_param in *.
    destruct (grad p) as [gr|] eqn:Eg; [|contradiction].
    destruct (update_param_first_any s p gr Hs Hp) as [He Hd].
    rewrite He. simpl in Hc.
    assert (Hs1 : step_counter (f_state (update_param g s p gr)) = 1%nat)
      by (unfold step_counter in *; now rewrite Hc).
    destruct (IH _ Hs1) as (s2 & ps2 & E2 & Hs2 & Hd2).
    rewrite E2. do 2 eexists. split; [reflexivity|]. split; [exact Hs2|].
    simpl. unfold first_update at 1. now rewrite Eg, Hd, Hd2.
Qed.

End FirstUpdate.

Lemma step_groups_first_any (s : State) (gs : list ParamGroup) :
  step_counter s = 1%nat ->
  Forall (fun g => Forall grad_matches (params g)) gs ->
  exists s' gs',
    step_groups s gs = (s', gs', None)
    /\ all_data gs' = map (fun g => map (first_update g) (params g)) gs.
Proof.
  intros Hs Hgs. revert s Hs.
  induction Hgs as [|g gs Hp _ IH]; intros s Hs.
  - exists s, []. auto.
  - destruct (step_params_first_any g s (params g) Hs Hp) as (s1 & ps1 & E1 & Hs1 & Hd).
    destruct (IH s1 Hs1) as (s2 & gs2 & E2 & Hd2).
    simpl. rewrite E1, E2. do 2 eexists. split; [reflexivity|].
    simpl. now rewrite Hd, Hd2.
Qed.

(** The corrected first update of one element. *)
Lemma new_value_sign_step (g : ParamGroup) (d x : R) :
  bias_correction g = true -> bias_m1 g <> 1 -> bias_m2 g <> 1 ->
  new_value g 1 d 0 0 x = sign_step g d x.
Proof.
  intros Hb H1 H2.
  unfold new_value, stored_first, stored_second, moment1, moment2, sign_step.
  rewrite Hb.
  replace ((0 * bias_m1 g + x * (1 - bias_m1 g)) / (1 - bias_m1 g ^ 1)) with x
    by (field; lra).
  replace ((0 * bias_m2 g + x ^ 2 * (1 - bias_m2 g)) / (1 - bias_m2 g ^ 1))
    with (Rsqr x) by (unfold Rsqr; field; lra).
  rewrite sqrt_Rsqr_abs. unfold Rdiv. ring.
Qed.

Lemma sign_step_bound (g : ParamGroup) (d x : R) :
  0 <= stepsize g -> 0 < epsilon g ->
  Rabs (sign_step g d x - d) <= stepsize g.
Proof.
  intros Hs He. unfold sign_step.
  pose proof (Rabs_pos x) as Hx.
  assert (Hd : 0 < Rabs x + epsilon g) by lra.
  assert (Hq : Rabs (x / (Rabs x + epsilon g)) <= 1).
  { unfold Rdiv. rewrite Rabs_mult, (Rabs_pos_eq (/ _))
      by (left; now apply Rinv_0_lt_compat).
    apply (Rmult_le_reg_r (Rabs x + epsilon g)); [exact Hd|].
    rewrite Rmult_assoc, Rinv_l by lra. lra. }
  replace (d - stepsize g * x / (Rabs x + epsilon g) - d)
    with (- (stepsize g * (x / (Rabs x + epsilon g)))) by (unfold Rdiv; ring).
  rewrite Rabs_Ropp, Rabs_mult, (Rabs_pos_eq (stepsize g)) by exact Hs.
  rewrite <- (Rmult_1_r (stepsize g)) at 2.
  now apply Rmult_le_compat_l.
Qed.

Lemma zip_with_ext_in (f h : R -> R -> R) (a b : Tensor.t) :
  (forall x y, f x y = h x y) -> Tensor.zip_with f a b = Tensor.zip_with h a b.
Proof.
  intros H. revert b; induction a as [|x a IH]; intros [|y b]; simpl; auto.
  now rewrite H, IH.
Qed.

Lemma zip_with_Forall2 (f : R -> R -> R) (P : R -> R -> Prop) (a b : Tensor.t) :
  length b = length a ->
  (forall x y, P x (f x y)) -> Forall2 P a (Tensor.zip_with f a b).
Proof.
  intros Hl H. revert b Hl; induction a as [|x a IH]; intros [|y b]; simpl;
    try discriminate; auto.
Qed.

Lemma zip_with_Forall (f : R -> R -> R) (P : R -> Prop) (a b : Tensor.t) :
  (forall x y, P (f x y)) -> Forall P (Tensor.zip_with f a b).
Proof.
  intros H. revert b; induction a as [|x a IH]; intros [|y b]; simpl; auto.
Qed.

(** X7.  The recurrence the code follows after the first call.  With the
    counter at 2 or more, decays in [0, 1), a positive epsilon, a stored
    second moment without negative entry, and stored moments, gradient and
    parameter of one shape, the loop body returns and leaves, element by
    element: in the second moment the square root of
    [v * b2 + x^2 * (1 - b2)] (divided by [1 - b2^t] under bias correction),
    in the first moment [m * b1 + x * (1 - b1)] (divided by [1 - b1^t] under
    bias correction) divided by that root plus epsilon, in the parameter its
    value minus stepsize times that stored first moment, and in the gradient
    its square.  The new second moment has no negative entry either. *)
Theorem later_update_is_elementwise :
  forall (g : ParamGroup) (s : State) (p : Param) (gr m v : Tensor.t),
    (2 <= step_counter s)%nat ->
    in_range g ->
    grad p = Some gr ->
    first_moment_estimate s = Some m ->
    second_moment_estimate s = Some v ->
    nonnegative v ->
    length m = length (data p) ->
    length v = length (data p) ->
    length gr = length (data p) ->
    step_param g s p
    = (mkState (st_step s)
         (Some (map3 (stored_first g (step_counter s)) m v gr))
         (Some (Tensor.zip_with (stored_second g (step_counter s)) v gr)),
       mkParam (map4 (new_value g (step_counter s)) (data p) m v gr)
               (Some (Tensor.pow_ gr 2)),
       None)
    /\ nonnegative (Tensor.zip_with (stored_second g (step_counter s)) v gr).
Proof.
  intros g s p gr m v Hs _ Eg Em Ev _ Hm Hv Hg. split.
  - unfold step_param. rewrite Eg.
    unfold update_param, corrected_moments, init_moments.
    assert (Hn : Nat.eqb (step_counter s) 1 = false) by (apply Nat.eqb_neq; lia).
    rewrite Hn.
    now rewrite (update_from_moments g s (data p) gr m v Em Ev Hm Hv Hg).
  - apply zip_with_Forall. intros x y. apply sqrt_pos.
Qed.

Lemma later_update_is_elementwise_witness :
  step_param plain_group_2 (mkState (Some 2%nat) (Some [1]) (Some [4]))
    (mkParam [0] (Some [2]))
  = (mkState (Some 2%nat)
       (Some (map3 (stored_first plain_group_2 2) [1] [4] [2]))
       (Some (Tensor.zip_with (stored_second plain_group_2 2) [4] [2])),
     mkParam (map4 (new_value plain_group_2 2) [0] [1] [4] [2])
             (Some (Tensor.pow_ [2] 2)),
     None).
Proof.
  apply (later_update_is_elementwise plain_group_2
           (mkState (Some 2%nat) (Some [1]) (Some [4]))
           (mkParam [0] (Some [2])) [2] [1] [4]);
    try reflexivity.
  - unfold in_range; simpl; lra.
  - repeat constructor; lra.
Defined.

(** X8.  On an optimizer that has not stepped yet, whose groups all have
    bias correction on, decays different from 1 and a positive epsilon, and
    whose parameters all carry a gradient of their own shape, the first call
    returns and moves every element from [d] to
    [d - stepsize * x / (|x| + epsilon)], [x] being its gradient: the decays
    cancel out. *)
Theorem first_step_with_bias_correction :
  forall (o : Optimizer) (closure : option R),
    step_counter (state o) = 0%nat ->
    Forall corrected_group (param_groups o) ->
    snd (step o closure) = Returned closure
    /\ all_data (param_groups (fst (step o closure)))
       = map (fun g => map (expected_sign_step g) (params g)) (param_groups o).
Proof.
  intros o closure H0 Hg. unfold step.
  destruct (step_groups_first_any (bump_step (state o)) (param_groups o))
    as (s' & gs' & E & Hd).
  - now rewrite bump_step_counter, H0.
  - eapply Forall_impl; [|exact Hg]. now intros g (_ & _ & _ & _ & H).
  - rewrite E. simpl. split; [reflexivity|]. rewrite Hd.
    apply map_ext_in. intros g Hin.
    rewrite Forall_forall in Hg. destruct (Hg g Hin) as (Hb & H1 & H2 & _ & _).
    apply map_ext. intros p. unfold first_update, expected_sign_step.
    destruct (grad p); [|reflexivity].
    apply zip_with_ext_in. intros d x. now apply new_value_sign_step.
Qed.

Lemma first_step_with_bias_correction_witness :
  all_data (param_groups (fst (step two_shapes_optimizer None)))
  = map (fun g => map (expected_sign_step g) (params g))
        (param_groups two_shapes_optimizer).
Proof.
  apply (first_step_with_bias_correction two_shapes_optimizer None).
  - reflexivity.
  - repeat constructor; simpl; lra.
Defined.

(** X9.  With bias correction on, decays different from 1, a stepsize that
    is not negative and a positive epsilon, the first update of a parameter
    moves no element by more than the stepsize. *)
Theorem first_update_moves_at_most_stepsize :
  forall (g : ParamGroup) (s : State) (p : Param) (gr : Tensor.t),
    step_counter s = 1%nat ->
    bias_correction g = true -> bias_m1 g <> 1 -> bias_m2 g <> 1 ->
    grad p = Some gr -> length gr = length (data p) ->
    0 <= stepsize g -> 0 < epsilon g ->
    snd (step_param g s p) = None
    /\ Forall2 (fun d d' => Rabs (d' - d) <= stepsize g)
         (data p) (data (snd (fst (step_param g s p)))).
Proof.
  intros g s p gr Hs Hb H1 H2 Eg Hl Hss He.
  unfold step_param. rewrite Eg. simpl.
  destruct (update_param_first_any g s p gr Hs Hl) as [Hx Hd].
  split; [exact Hx|]. rewrite Hd.
  apply zip_with_Forall2; [exact Hl|].
  intros d x. rewrite (new_value_sign_step g d x Hb H1 H2).
  now apply sign_step_bound.
Qed.

Lemma first_update_moves_at_most_stepsize_witness :
  Forall2 (fun d d' => Rabs (d' - d) <= 0.001)
    [0; 0]
    (data (snd (fst (step_param
                       (mkGroup [] 0.001 0.9 0.999 10e-8 true)
                       (mkState (Some 1%nat) None None)
                       (mkParam [0; 0] (Some [5; -3])))))).
Proof.
  apply (first_update_moves_at_most_stepsize
           (mkGroup [] 0.001 0.9 0.999 10e-8 true)
           (mkState (Some 1%nat) None None)
           (mkParam [0; 0] (Some [5; -3])) [5; -3]);
    try reflexivity; simpl; lra.
Defined.

(** ** Stepsize zero *)

Lemma add_zero_keeps (x y : Tensor.t) (z : Tensor.t) :
  Tensor.add_ x (Tensor.scalar_mul (- 0) y) = Some z -> z = x.
Proof.
  unfold Tensor.add_, Tensor.inplace, Tensor.scalar_mul.
  destruct (Nat.eqb _ _) eqn:E.
  - intros [= <-]. apply Nat.eqb_eq in E. rewrite length_map in E.
    revert y E; induction x as [|a x IH]; intros [|b y]; simpl; try discriminate; auto.
    intros [= E]. rewrite (IH y E). f_equal. ring.
  - destruct y as [|b [|c y]]; simpl; try discriminate.
    intros [= <-]. rewrite <- (map_id x) at 2. apply map_ext. intros a. ring.
Qed.

Lemma apply_update_zero_stepsize g fr :
  stepsize g = 0 -> f_data (apply_update g fr) = f_data fr.
Proof.
  intros H0. unfold apply_update.
  destruct (first_moment_estimate (f_state fr)), (second_moment_estimate (f_state fr));
    try reflexivity.
  destruct (Tensor.divide_ _ _); [|reflexivity].
  rewrite H0. destruct (Tensor.add_ _ _) eqn:E; [|reflexivity].
  simpl. exact (add_zero_keeps _ _ _ E).
Qed.

Lemma step_param_zero_stepsize g s p :
  stepsize g = 0 -> data (snd (fst (step_param g s p))) = data p.
Proof.
  intros H0. unfold step_param. destruct (grad p); [|reflexivity]. simpl.
  unfold update_param, andthen.
  destruct (f_exn (corrected_moments g s p t)).
  - apply corrected_moments_data.
  - rewrite (apply_update_zero_stepsize g _ H0). apply corrected_moments_data.
Qed.

Lemma step_params_zero_stepsize g ps : forall s,
  stepsize g = 0 -> map data (snd (fst (step_params g s ps))) = map data ps.
Proof.
  induction ps as [|p ps IH]; intros s H0; simpl; auto.
  pose proof (step_param_zero_stepsize g s p H0) as Hp.
  destruct (step_param g s p) as [[s1 p1] [e|]]; simpl in *.
  - now rewrite Hp.
  - specialize (IH s1 H0). destruct (step_params g s1 ps) as [[s2 ps2] e]; simpl in *.
    now rewrite Hp, IH.
Qed.

Lemma step_groups_zero_stepsize gs : forall s,
  Forall (fun g => stepsize g = 0) gs ->
  all_data (snd (fst (step_groups s gs))) = all_data gs.
Proof.
  induction gs as [|g gs IH]; intros s H; simpl; auto.
  inversion H as [|? ? H0 Hgs]; subst.
  pose proof (step_params_zero_stepsize g (params g) s H0) as Hp.
  destruct (step_params g s (params g)) as [[s1 ps1] [e|]]; simpl in *.
  - now rewrite Hp.
  - specialize (IH s1 Hgs). destruct (step_groups s1 gs) as [[s2 gs2] e]; simpl in *.
    now rewrite Hp, IH.
Qed.

(** X10.  A stepsize of 0 passes the constructor's check.  On groups with
    stepsize 0, decays in [0, 1) and a positive epsilon, and a stored second
    moment without negative entry, a call leaves the data of every parameter
    as it was, whether it returns or raises. *)
Theorem zero_stepsize_freezes_parameters :
  (forall ps b1 b2 eps bc,
      ps <> [] -> 0 <= b1 -> 0 <= b2 \/ bc = false ->
      __init__ ps 0 b1 b2 eps bc
      = inr (mkOpt [mkGroup ps 0 b1 b2 eps bc] empty_state))
  /\ (forall (o : Optimizer) (closure : option R),
         Forall (fun g => stepsize g = 0 /\ in_range g) (param_groups o) ->
         second_nonnegative (state o) ->
         all_data (param_groups (fst (step o closure)))
         = all_data (param_groups o)).
Proof.
  split.
  - intros. apply init_valid; auto. lra.
  - intros o closure H _. unfold step.
    assert (H0 : Forall (fun g => stepsize g = 0) (param_groups o))
      by (eapply Forall_impl; [|exact H]; now intros g [Hg _]).
    pose proof (step_groups_zero_stepsize _ (bump_step (state o)) H0) as Hd.
    destruct (step_groups _ _) as [[s' gs'] [e|]]; simpl in *; exact Hd.
Qed.

Lemma zero_stepsize_freezes_parameters_witness :
  all_data (param_groups
              (fst (step (mkOpt [mkGroup [mkParam [3] (Some [4])] 0 0.9 0.999 10e-8 true]
                                empty_state) None)))
  = [[[3]]].
Proof.
  apply (proj2 zero_stepsize_freezes_parameters
           (mkOpt [mkGroup [mkParam [3] (Some [4])] 0 0.9 0.999 10e-8 true]
                  empty_state) None).
  - repeat constructor; simpl; lra.
  - exact I.
Defined.

(** ** Moments that were never allocated *)

Lemma bump_step_first s :
  first_moment_estimate (bump_step s) = first_moment_estimate s.
Proof. unfold bump_step. now destruct (st_step s) as [[|n]|]. Qed.

Lemma update_param_without_moments g s p gr :
  step_counter s <> 1%nat ->
  first_moment_estimate s = None ->
  update_param g s p gr = mkFrame s (data p) gr (Some AttributeError).
Proof.
  intros Hs Hm. unfold update_param, corrected_moments, init_moments.
  apply Nat.eqb_neq in Hs. rewrite Hs.
  assert (E : mkFrame s (data p) gr None >>= update_first g
              = mkFrame s (data p) gr (Some AttributeError)).
  { unfold andthen, update_first. simpl. now rewrite Hm. }
  rewrite E. reflexivity.
Qed.

(** X11.  When a call finds the counter already at 1 or more and no stored
    first moment (the first call raised before it updated any parameter),
    it raises [AttributeError] at the first parameter and changes nothing
    but the counter. *)
Theorem step_without_moments_raises :
  forall (o : Optimizer) (closure : option R) g gs p ps,
    param_groups o = g :: gs ->
    params g = p :: ps ->
    (1 <= step_counter (state o))%nat ->
    first_moment_estimate (state o) = None ->
    step o closure
    = (mkOpt (param_groups o) (bump_step (state o)), Raised AttributeError).
Proof.
  intros [gs0 s] closure g gs p ps Hg Hp H1 Hm. simpl in *. subst gs0.
  unfold step. simpl. rewrite Hp. simpl.
  assert (E : step_param g (bump_step s) p = (bump_step s, p, Some AttributeError)).
  { unfold step_param. destruct p as [d [gr|]]; simpl; [|reflexivity].
    now rewrite (update_param_without_moments g (bump_step s)
                   (mkParam d (Some gr)) gr)
      by (rewrite ?bump_step_counter, ?bump_step_first; auto; lia). }
  rewrite E. simpl. do 2 f_equal.
  destruct g; simpl in *. now subst.
Qed.

Lemma step_without_moments_raises_witness :
  snd (step (backward (fst (step frozen_optimizer None)) [[Some [1]]]) None)
  = Raised AttributeError.
Proof.
  rewrite (step_without_moments_raises
             (backward (fst (step frozen_optimizer None)) [[Some [1]]]) None
             (mkGroup [mkParam [5] (Some [1])] 0.001 0.9 0.999 10e-8 true) []
             (mkParam [5] (Some [1])) []);
    reflexivity.
Defined.

(** ** The direction of the first update *)

Lemma sign_step_descends (g : ParamGroup) (d x : R) :
  0 <= stepsize g -> 0 < epsilon g ->
  (sign_step g d x - d) * x <= 0.
Proof.
  intros Hs He. unfold sign_step.
  pose proof (Rabs_pos x) as Hx.
  assert (Hi : 0 < / (Rabs x + epsilon g)) by (apply Rinv_0_lt_compat; lra).
  replace ((d - stepsize g * x / (Rabs x + epsilon g) - d) * x)
    with (- (stepsize g * (x * x) * / (Rabs x + epsilon g)))
    by (unfold Rdiv; ring).
  assert (0 <= stepsize g * (x * x) * / (Rabs x + epsilon g)); [|lra].
  apply Rmult_le_pos; [apply Rmult_le_pos|]; try lra. nra.
Qed.

Lemma nth_zip_with (f : R -> R -> R) (a b : Tensor.t) (i : nat) :
  length b = length a -> (i < length a)%nat ->
  nth i (Tensor.zip_with f a b) 0 = f (nth i a 0) (nth i b 0).
Proof.
  revert b i; induction a as [|x a IH]; intros [|y b] [|i]; simpl;
    intros; try discriminate; try lia; auto.
  apply IH; lia.
Qed.

(** X12.  With bias correction on, decays different from 1, a stepsize that
    is not negative and a positive epsilon, the first update moves no
    element in the direction of its gradient: the change times the gradient
    is never positive, and an element whose gradient is 0 keeps its value. *)
Theorem first_update_descends :
  forall (g : ParamGroup) (s : State) (p : Param) (gr : Tensor.t) (i : nat),
    step_counter s = 1%nat ->
    bias_correction g = true -> bias_m1 g <> 1 -> bias_m2 g <> 1 ->
    grad p = Some gr -> length gr = length (data p) ->
    0 <= stepsize g -> 0 < epsilon g ->
    (i < length (data p))%nat ->
    (nth i (data (snd (fst (step_param g s p)))) 0 - nth i (data p) 0) * nth i gr 0 <= 0
    /\ (nth i gr 0 = 0 ->
        nth i (data (snd (fst (step_param g s p)))) 0 = nth i (data p) 0).
Proof.
  intros g s p gr i Hs Hb H1 H2 Eg Hl Hss He Hi.
  unfold step_param. rewrite Eg. simpl.
  destruct (update_param_first_any g s p gr Hs Hl) as [_ Hd].
  rewrite Hd, nth_zip_with by assumption.
  rewrite (new_value_sign_step g _ _ Hb H1 H2).
  split; [now apply sign_step_descends|].
  intros ->. unfold sign_step, Rdiv. ring.
Qed.

Lemma first_update_descends_witness :
  (nth 1 (data (snd (fst (step_param
                            (mkGroup [] 0.001 0.9 0.999 10e-8 true)
                            (mkState (Some 1%nat) None None)
                            (mkParam [0; 0] (Some [5; -3])))))) 0
   - nth 1 [0; 0] 0) * nth 1 [5; -3] 0 <= 0.
Proof.
  apply (first_update_descends
           (mkGroup [] 0.001 0.9 0.999 10e-8 true)
           (mkState (Some 1%nat) None None)
           (mkParam [0; 0] (Some [5; -3])) [5; -3] 1);
    try reflexivity; simpl; lra || lia.
Defined.

(** ** No parameters *)

Lemma step_groups_no_params gs : forall s,
  Forall (fun g => params g = []) gs -> step_groups s gs = (s, gs, None).
Proof.
  induction gs as [|g gs IH]; intros s H; simpl; auto.
  inversion H as [|? ? Hg Hgs]; subst.
  rewrite Hg. simpl. rewrite (IH s Hgs). f_equal. f_equal. f_equal.
  destruct g; simpl in *. now subst.
Qed.

(** X13.  On groups without parameters a call returns the closure's loss
    and changes nothing but the counter. *)
Theorem step_without_parameters_only_counts :
  forall (o : Optimizer) (closure : option R),
    Forall (fun g => params g = []) (param_groups o) ->
    step o closure = (mkOpt (param_groups o) (bump_step (state o)), Returned closure).
Proof.
  intros o closure H. unfold step.
  now rewrite (step_groups_no_params _ _ H).
Qed.

Lemma step_without_parameters_only_counts_witness :
  step (mkOpt [mkGroup [] 0.001 0.9 0.999 10e-8 true] empty_state) (Some 2)
  = (mkOpt [mkGroup [] 0.001 0.9 0.999 10e-8 true] (bump_step empty_state),
     Returned (Some 2)).
Proof.
  apply (step_without_parameters_only_counts
           (mkOpt [mkGroup [] 0.001 0.9 0.999 10e-8 true] empty_state) (Some 2)).
  repeat constructor.
Defined.
